(** * trlm.c: a prefix trie driving a depth-indexed reservoir, with a
      trainable softmax readout

    Shallow embedding of [src/trlm.c] and the properties of its trie,
    its reservoir recurrence and its readout layer.

    Conventions of the embedding.
    - A [float] is a real number: arithmetic is exact, [expf] is the real
      exponential, [fabsf] the absolute value.  This reading describes the
      code up to rounding as long as no operation overflows; properties of
      the computed values are stated on operands small enough for that.
      Overflow and NaN are shown on the binary32 reading of the same code
      (section "The binary32 reading").
    - A C string is the list of its characters before the terminator, and
      [int length = (int)strlen(str)] is the length of that list.
    - A trie is the tree of nodes owned by its root: [children] maps an
      [unsigned char] to the child stored in that slot of the 256-entry
      array, a slot holding [NULL] being absent from the map.
    - File-scope variables and the state of the C library's [rand] form the
      record [Globals]; functions that touch them run in the monad [M],
      which also reports the two faults the C code could commit: a division
      by zero and an access past the end of the weight bank. *)

From Stdlib Require Import ZArith Reals Lra Lia Ascii String SpecFloat.
From stdpp Require Import gmap strings list.

Set Warnings "-register-all".

(** ** Constants ([#define]s of the source) *)

Definition RESERVOIR_SIZE : nat := 64.
Definition MAX_DEPTH : nat := 16.
Definition OUT_DIM : nat := 4.
Definition ALPHA : R := (85 / 100)%R.         (* 0.85f *)
Definition RHO : R := (9 / 10)%R.             (* 0.9f *)
Definition NOISE : R := (1 / 100)%R.          (* the literal 0.01f *)
Definition EPSILON : R := (1 / 100000)%R.     (* the literal 1e-5f *)

(** ** The trie *)

(** [struct TrieNode]. *)
Inductive TrieNode : Type :=
  Node { children : gmap ascii TrieNode; depth : Z; is_leaf : bool }.

(** [create_trie_node]: no child, not a leaf. *)
Definition create_trie_node (d : Z) : TrieNode :=
  {| children := ∅; depth := d; is_leaf := false |}.

(** The loop of [trie_insert]; [fuel] is what is left of the bound
    [i < MAX_DEPTH], the list what is left of [i < length].  The in-place
    update of [cur->children[c]] rebuilds the node on the way back. *)
Fixpoint insert_loop (fuel : nat) (cur : TrieNode) (str : list ascii) : TrieNode :=
  match fuel, str with
  | S fuel', c :: rest =>
      let child := match children cur !! c with
                   | Some n => n
                   | None => create_trie_node (depth cur + 1)
                   end in
      {| children := <[c := insert_loop fuel' child rest]> (children cur);
         depth := depth cur;
         is_leaf := is_leaf cur |}
  | _, _ => {| children := children cur; depth := depth cur; is_leaf := true |}
  end.

Definition trie_insert (root : TrieNode) (str : list ascii) : TrieNode :=
  insert_loop MAX_DEPTH root str.

(** The construction sequence of [main]: a root of depth 0, then one
    [trie_insert] per word. *)
Definition build_trie (words : list (list ascii)) : TrieNode :=
  fold_left trie_insert words (create_trie_node 0).

(** The node found by following [path] from [cur], if every edge exists. *)
Fixpoint walk (cur : TrieNode) (path : list ascii) : option TrieNode :=
  match path with
  | [] => Some cur
  | c :: rest =>
      match children cur !! c with
      | Some n => walk n rest
      | None => None
      end
  end.

(** Every populated child is one level below its parent, all the way down. *)
Inductive depth_ok : TrieNode -> Prop :=
  depth_ok_node t :
    (forall c n, children t !! c = Some n -> depth n = (depth t + 1)%Z) ->
    (forall c n, children t !! c = Some n -> depth_ok n) ->
    depth_ok t.

(** ** Faults and the state monad *)

Inductive fault : Type := DivisionByZero | OutOfBounds.

Inductive res (A : Type) : Type :=
| Ok (a : A)
| Fault (f : fault).
Arguments Ok {A} a.
Arguments Fault {A} f.

(** [reservoir_weights] is the bank [float**] (empty while it is [NULL]),
    each matrix stored row after row; [readout_weights] is the
    [OUT_DIM x RESERVOIR_SIZE] array; [rand_seed] and [rand_count] are the
    state of [rand]: the seed last given to [srand] and the number of
    draws made since. *)
Record Globals : Type := {
  reservoir_weights : list (list R);
  readout_weights : list (list R);
  rand_seed : Z;
  rand_count : nat
}.

Definition M (A : Type) : Type := Globals -> res (A * Globals).

Definition ret {A} (a : A) : M A := fun g => Ok (a, g).

Definition bind {A B} (m : M A) (k : A -> M B) : M B :=
  fun g => match m g with
           | Ok (a, g') => k a g'
           | Fault f => Fault f
           end.

Notation "x <~ m ;; k" := (bind m (fun x => k))
  (at level 100, m at next level, right associativity).

Definition get : M Globals := fun g => Ok (g, g).
Definition put (g : Globals) : M unit := fun _ => Ok (tt, g).
Definition lift {A} (r : res A) : M A :=
  fun g => match r with Ok a => Ok (a, g) | Fault f => Fault f end.

(** A counted [for] loop whose iterations each produce one array entry. *)
Fixpoint for_each {A B} (body : A -> M B) (l : list A) : M (list B) :=
  match l with
  | [] => ret []
  | a :: l' => b <~ body a ;; bs <~ for_each body l' ;; ret (b :: bs)
  end.

(** ** The random source *)

(** [RAND_MAX] and the generator behind [rand] come from the C library and
    are parameters: [rand_seq seed n] is the [n]-th value [rand] returns
    after [srand(seed)].  The C standard gives [RAND_MAX >= 32767] and
    [0 <= rand() <= RAND_MAX]. *)
Record RandSource : Type := {
  RAND_MAX : Z;
  rand_seq : Z -> nat -> Z;
  RAND_MAX_min : (32767 <= RAND_MAX)%Z;
  rand_seq_range : forall seed n, (0 <= rand_seq seed n <= RAND_MAX)%Z
}.

Section Model.

Context (rs : RandSource).

Local Open Scope R_scope.

Definition rand : M Z :=
  fun g => Ok (rand_seq rs (rand_seed g) (rand_count g),
               {| reservoir_weights := reservoir_weights g;
                  readout_weights := readout_weights g;
                  rand_seed := rand_seed g;
                  rand_count := S (rand_count g) |}).

Definition srand (seed : Z) : M unit :=
  fun g => Ok (tt, {| reservoir_weights := reservoir_weights g;
                      readout_weights := readout_weights g;
                      rand_seed := seed;
                      rand_count := 0 |}).

(** Float division; the model faults where the divisor is zero. *)
Definition fdiv (x y : R) : res R :=
  if Req_dec_T y 0 then Fault DivisionByZero else Ok (x / y).

(** The value [rand_float] computes from the integer [r] that [rand]
    returned: [(float)r / (float)(RAND_MAX/2) - 1.0f], the inner division
    being the integer one. *)
Definition rand_float_of (r : Z) : res R :=
  match fdiv (IZR r) (IZR (Z.quot (RAND_MAX rs) 2)) with
  | Ok q => Ok (q - 1)
  | Fault f => Fault f
  end.

Definition rand_float : M R :=
  r <~ rand ;; lift (rand_float_of r).

Definition activate_tanh (x : R) : res R :=
  let e1 := exp x in
  let e2 := exp (- x) in
  fdiv (e1 - e2) (e1 + e2).

(** Row [i] of [W] times [inp], accumulated from [0.0f] in index order. *)
Definition row_dot (W inp : list R) (i : nat) : R :=
  fold_left (fun sum j => sum + nth (i * RESERVOIR_SIZE + j) W 0 * nth j inp 0)
            (seq 0 RESERVOIR_SIZE) 0.

Definition matvec (W inp : list R) : list R :=
  map (row_dot W inp) (seq 0 RESERVOIR_SIZE).

(** [reservoir_update]: the new content of [h_inout]. *)
Definition reservoir_update (Wl h : list R) : M (list R) :=
  let tmp := matvec Wl h in
  noisy <~ for_each (fun i => n <~ rand_float ;; ret (nth i tmp 0 + NOISE * n))
                    (seq 0 RESERVOIR_SIZE) ;;
  for_each (fun i => z <~ lift (activate_tanh (nth i noisy 0)) ;; ret (ALPHA * z))
           (seq 0 RESERVOIR_SIZE).

(** [reservoir_weights[l]] for an [int l]. *)
Definition weights_at (l : Z) : M (list R) :=
  fun g =>
    if (l <? 0)%Z then Fault OutOfBounds
    else match reservoir_weights g !! Z.to_nat l with
         | Some W => Ok (W, g)
         | None => Fault OutOfBounds
         end.

(** The loop of [trie_reservoir_forward], with [fuel] and the list as in
    [insert_loop]; the result is the final content of [h_state]. *)
Fixpoint forward_loop (fuel : nat) (cur : TrieNode) (input : list ascii)
    (h : list R) : M (list R) :=
  match fuel, input with
  | S fuel', c :: rest =>
      match children cur !! c with
      | None => ret h
      | Some child =>
          Wl <~ weights_at (depth cur) ;;
          h' <~ reservoir_update Wl h ;;
          forward_loop fuel' child rest h'
      end
  | _, _ => ret h
  end.

Definition trie_reservoir_forward (root : TrieNode) (input : list ascii)
    (h_state : list R) : M (list R) :=
  forward_loop MAX_DEPTH root input h_state.

(** One matrix of [init_reservoir_weights]: the body of its outer loop. *)
Definition init_reservoir_matrix : M (list R) :=
  raw <~ for_each (fun _ => rand_float) (seq 0 (RESERVOIR_SIZE * RESERVOIR_SIZE)) ;;
  let norm_sum := fold_left (fun s w => s + Rabs w) raw 0 in
  avg_abs <~ lift (fdiv norm_sum (INR (RESERVOIR_SIZE * RESERVOIR_SIZE))) ;;
  scale <~ (if Rlt_dec EPSILON avg_abs then lift (fdiv RHO avg_abs) else ret 1) ;;
  ret (map (fun w => w * scale) raw).

(** [init_reservoir_weights]; [now] is the value of [time(NULL)], cast to
    [unsigned int] for [srand]. *)
Definition init_reservoir_weights (depth_count : Z) (now : Z) : M unit :=
  _ <~ srand (now mod 2 ^ 32)%Z ;;
  bank <~ for_each (fun _ => init_reservoir_matrix) (seq 0 (Z.to_nat depth_count)) ;;
  g <~ get ;;
  put {| reservoir_weights := bank;
         readout_weights := readout_weights g;
         rand_seed := rand_seed g;
         rand_count := rand_count g |}.

(** The logit of output unit [i]: [readout_weights[i]] times [h_state]. *)
Definition logit (W : list (list R)) (h : list R) (i : nat) : R :=
  fold_left (fun z j => z + nth j (nth i W []) 0 * nth j h 0)
            (seq 0 RESERVOIR_SIZE) 0.

(** [readout_forward]: the final content of [out_probs]. *)
Definition readout_forward (h_state : list R) : M (list R) :=
  g <~ get ;;
  let exps := map (fun i => exp (logit (readout_weights g) h_state i)) (seq 0 OUT_DIM) in
  let sum_exp := fold_left Rplus exps 0 in
  for_each (fun i => lift (fdiv (nth i exps 0) sum_exp)) (seq 0 OUT_DIM).

(** [readout_train]. *)
Definition readout_train (h_state : list R) (gold_index : Z) (lr : R) : M unit :=
  probs <~ readout_forward h_state ;;
  g <~ get ;;
  let W := readout_weights g in
  put {| reservoir_weights := reservoir_weights g;
         readout_weights :=
           map (fun i =>
                  let grad := if (Z.of_nat i =? gold_index)%Z
                              then nth i probs 0 - 1 else nth i probs 0 in
                  map (fun j => nth j (nth i W []) 0 - lr * grad * nth j h_state 0)
                      (seq 0 RESERVOIR_SIZE))
               (seq 0 OUT_DIM);
         rand_seed := rand_seed g;
         rand_count := rand_count g |}.

End Model.

(** ** Definitions used to state the properties *)

(** The depths [l = cur->depth] at which [forward_loop] calls
    [reservoir_update], in order. *)
Fixpoint visited_depths (fuel : nat) (cur : TrieNode) (input : list ascii) : list Z :=
  match fuel, input with
  | S fuel', c :: rest =>
      match children cur !! c with
      | None => []
      | Some child => depth cur :: visited_depths fuel' child rest
      end
  | _, _ => []
  end.

(** The child slot followed by the loop of [trie_insert], as it is when
    the loop descends. *)
Definition slot (cur : TrieNode) (c : ascii) : TrieNode :=
  match children cur !! c with
  | Some n => n
  | None => create_trie_node (depth cur + 1)
  end.


Section ModelSpec.

Context (rs : RandSource).

Local Open Scope R_scope.

(** One [reservoir_update] per depth of the list, each with the matrix the
    bank holds at that depth. *)
Fixpoint run_updates (depths : list Z) (h : list R) : M (list R) :=
  match depths with
  | [] => ret h
  | l :: rest =>
      Wl <~ weights_at l ;;
      h' <~ reservoir_update rs Wl h ;;
      run_updates rest h'
  end.

(** Any number of [readout_train] calls, each with its own state vector,
    gold index and learning rate. *)
Fixpoint train_steps (calls : list (list R * Z * R)) : M unit :=
  match calls with
  | [] => ret tt
  | (h, gold, lr) :: rest => _ <~ readout_train h gold lr ;; train_steps rest
  end.

(** The globals after [k] more calls of [rand]. *)
Definition advance (g : Globals) (k : nat) : Globals :=
  {| reservoir_weights := reservoir_weights g;
     readout_weights := readout_weights g;
     rand_seed := rand_seed g;
     rand_count := rand_count g + k |}.

(** The globals right after [srand(seed)]. *)
Definition seeded (g : Globals) (seed : Z) : Globals :=
  {| reservoir_weights := reservoir_weights g;
     readout_weights := readout_weights g;
     rand_seed := seed;
     rand_count := 0 |}.

(** What the [n]-th next call of [rand_float] returns, counted from [g]. *)
Definition draw (g : Globals) (n : nat) : R :=
  IZR (rand_seq rs (rand_seed g) (rand_count g + n))
  / IZR (Z.quot (RAND_MAX rs) 2) - 1.

(** The samples of one matrix: the next [RESERVOIR_SIZE²] draws. *)
Definition samples (g : Globals) : list R :=
  map (fun i => draw g (i - 0)) (seq 0 (RESERVOIR_SIZE * RESERVOIR_SIZE)).

End ModelSpec.

Definition sum_list (l : list R) : R := fold_right Rplus 0%R l.

(** Mean absolute entry of a matrix. *)
Definition mean_abs (W : list R) : R :=
  (sum_list (map Rabs W) / INR (length W))%R.

(** The softmax of a vector of logits. *)
Definition softmax (z : list R) : list R :=
  map (fun x => (exp x / sum_list (map exp z))%R) z.

(** The logits of the [OUT_DIM] output units. *)
Definition logits (W : list (list R)) (h : list R) : list R :=
  map (logit W h) (seq 0 OUT_DIM).

(** The gradient of the cross-entropy loss in the logit of unit [i]. *)
Definition gradient (probs : list R) (gold_index : Z) (i : nat) : R :=
  if (Z.of_nat i =? gold_index)%Z then (nth i probs 0 - 1)%R else nth i probs 0%R.

(** [W] is the matrix of samples [raw] after the scaling step, [scale]
    being the factor applied. *)
Definition scaled_from (raw : list R) (scale : R) (W : list R) : Prop :=
  W = map (fun w => (w * scale)%R) raw
  /\ length raw = (RESERVOIR_SIZE * RESERVOIR_SIZE)%nat
  /\ ((EPSILON < mean_abs raw)%R -> mean_abs W = RHO)
  /\ (~ (EPSILON < mean_abs raw)%R -> scale = 1%R).

(** A random source that returns the same value at every call. *)
Definition constant_source (rand_max : Z) (H : (32767 <= rand_max)%Z)
    (r : Z) (Hr : (0 <= r <= rand_max)%Z) : RandSource :=
  {| RAND_MAX := rand_max; rand_seq := fun _ _ => r;
     RAND_MAX_min := H; rand_seq_range := fun _ _ => Hr |}.

(** The source whose every draw is [RAND_MAX], for the two usual values of
    [RAND_MAX]: 32767 and 2147483647. *)
Definition top_source_15 : RandSource :=
  constant_source 32767 ltac:(lia) 32767 ltac:(lia).

Definition top_source_31 : RandSource :=
  constant_source 2147483647 ltac:(lia) 2147483647 ltac:(lia).

(** Globals with a bank of [MAX_DEPTH] zero matrices and zero readout
    weights. *)
Definition zero_globals : Globals :=
  {| reservoir_weights := repeat (repeat 0%R (RESERVOIR_SIZE * RESERVOIR_SIZE)) MAX_DEPTH;
     readout_weights := repeat (repeat 0%R RESERVOIR_SIZE) OUT_DIM;
     rand_seed := 1;
     rand_count := 0 |}.

(** ** The rest of the program: [init_readout] and [main] *)

Section Driver.

Context (rs : RandSource).

Local Open Scope R_scope.

(** [init_readout]: the entries are drawn row after row. *)
Definition init_readout : M unit :=
  W <~ for_each (fun _ =>
                   for_each (fun _ => n <~ rand_float rs ;; ret (1 / 100 * n))
                            (seq 0 RESERVOIR_SIZE))
                (seq 0 OUT_DIM) ;;
  g <~ get ;;
  put {| reservoir_weights := reservoir_weights g;
         readout_weights := W;
         rand_seed := rand_seed g;
         rand_count := rand_count g |}.

(** A state buffer after [memset(h_state, 0, sizeof(h_state))]. *)
Definition zero_state : list R := repeat 0 RESERVOIR_SIZE.

(** One training example of [main]: clear the state, run the traversal,
    train the readout. *)
Definition train_example (root : TrieNode) (word : list ascii) (gold_index : Z)
    (lr : R) : M unit :=
  h <~ trie_reservoir_forward rs root word zero_state ;;
  readout_train h gold_index lr.

(** The epoch loop of [main], [n] epochs from number [epoch] on; the result
    is the learning rate at the end. *)
Fixpoint epoch_loop (n : nat) (epoch : Z) (root : TrieNode) (learning_rate : R) : M R :=
  match n with
  | O => ret learning_rate
  | S n' =>
      _ <~ train_example root (list_ascii_of_string "hello") 0 learning_rate ;;
      _ <~ train_example root (list_ascii_of_string "cat") 1 learning_rate ;;
      _ <~ train_example root (list_ascii_of_string "dog") 2 learning_rate ;;
      _ <~ train_example root (list_ascii_of_string "help") 3 learning_rate ;;
      epoch_loop n' (epoch + 1) root
        (if (Z.rem epoch 20 =? 19)%Z then learning_rate * (9 / 10) else learning_rate)
  end.

(** The words [main] inserts, in its order. *)
Definition main_words : list (list ascii) :=
  map list_ascii_of_string ["hello"; "help"; "helium"; "cat"; "dog"]%string.

(** [main], up to the numbers it prints: the probabilities of "hello"
    after training.  [now] is the value of [time(NULL)]. *)
Definition main (now : Z) : M (list R) :=
  let root := fold_left trie_insert main_words (create_trie_node 0) in
  _ <~ init_reservoir_weights rs (Z.of_nat MAX_DEPTH) now ;;
  _ <~ init_readout ;;
  _ <~ epoch_loop 100 0 root (1 / 100) ;;
  h <~ trie_reservoir_forward rs root (list_ascii_of_string "hello") zero_state ;;
  readout_forward h.

End Driver.

(** The number of epochs [e] among the [n] epochs from [epoch] on at which
    the loop of [main] lowers the learning rate ([e % 20 == 19]). *)
Fixpoint decays (n : nat) (epoch : Z) : nat :=
  match n with
  | O => 0
  | S n' => (if (Z.rem epoch 20 =? 19)%Z then 1 else 0) + decays n' (epoch + 1)
  end.

(** The squared norm of the first [RESERVOIR_SIZE] entries of a state. *)
Definition sq_norm (h : list R) : R :=
  sum_list (map (fun j => (nth j h 0 * nth j h 0)%R) (seq 0 RESERVOIR_SIZE)).

(** The readout matrix after [readout_train]. *)
Definition trained (W : list (list R)) (h : list R) (gold_index : Z) (lr : R)
    : list (list R) :=
  map (fun i =>
         map (fun j => (nth j (nth i W []) 0
                        - lr * gradient (softmax (logits W h)) gold_index i * nth j h 0)%R)
             (seq 0 RESERVOIR_SIZE))
      (seq 0 OUT_DIM).

(** A state of [RESERVOIR_SIZE] components, all between [-ALPHA] and
    [ALPHA]. *)
Definition bounded_state (h : list R) : Prop :=
  length h = RESERVOIR_SIZE /\ Forall (fun x => (- ALPHA <= x <= ALPHA)%R) h.

(** The sum of the absolute values of the terms of [row_dot W inp i]: a
    bound of every partial sum the loop of [matvec] goes through. *)
Definition abs_row_dot (W inp : list R) (i : nat) : R :=
  sum_list (map (fun j => Rabs (nth (i * RESERVOIR_SIZE + j) W 0 * nth j inp 0)%R)
                (seq 0 RESERVOIR_SIZE)).

(** The same for the logit of output unit [i]. *)
Definition abs_logit (W : list (list R)) (h : list R) (i : nat) : R :=
  sum_list (map (fun j => Rabs (nth j (nth i W []) 0 * nth j h 0)%R)
                (seq 0 RESERVOIR_SIZE)).

(** ** The binary32 reading

    Single precision after the Standard Library's specification of IEEE 754
    arithmetic, at precision 24 and maximal exponent 128, for the places
    where a [float] stops behaving like a real number.  [expf] belongs to
    the C library and is a parameter. *)

Definition f32_zero : spec_float := S754_zero false.
Definition f32_of_Z (z : Z) : spec_float := binary_normalize 24 128 z 0 false.
Definition f32_add : spec_float -> spec_float -> spec_float := SFadd 24 128.
Definition f32_sub : spec_float -> spec_float -> spec_float := SFsub 24 128.
Definition f32_mul : spec_float -> spec_float -> spec_float := SFmul 24 128.
Definition f32_div : spec_float -> spec_float -> spec_float := SFdiv 24 128.

(** [rand_float] on the integer [r] that [rand] returned. *)
Definition rand_float32 (rand_max r : Z) : spec_float :=
  f32_sub (f32_div (f32_of_Z r) (f32_of_Z (Z.quot rand_max 2))) (f32_of_Z 1).

(** [activate_tanh]. *)
Definition activate_tanh32 (expf : spec_float -> spec_float) (x : spec_float)
    : spec_float :=
  let e1 := expf x in
  let e2 := expf (SFopp x) in
  f32_div (f32_sub e1 e2) (f32_add e1 e2).

(** The logit of output unit [i], accumulated as the inner loop of
    [readout_forward] does. *)
Definition logit32 (W : list (list spec_float)) (h : list spec_float) (i : nat)
    : spec_float :=
  fold_left (fun z j => f32_add z (f32_mul (nth j (nth i W []) f32_zero)
                                           (nth j h f32_zero)))
            (seq 0 RESERVOIR_SIZE) f32_zero.

(** [readout_forward], for the readout matrix [W]. *)
Definition readout_forward32 (expf : spec_float -> spec_float)
    (W : list (list spec_float)) (h_state : list spec_float) : list spec_float :=
  let exps := map (fun i => expf (logit32 W h_state i)) (seq 0 OUT_DIM) in
  let sum_exp := fold_left f32_add exps f32_zero in
  map (fun i => f32_div (nth i exps f32_zero) sum_exp) (seq 0 OUT_DIM).

(** What the C library's [expf] does above the logarithm of the largest
    [float] (88.72...): it overflows to +infinity. *)
Definition expf_overflows (expf : spec_float -> spec_float) : Prop :=
  forall x, SFltb (f32_of_Z 89) x = true -> expf x = S754_infinity false.

(** [OUT_DIM] values, none negative, whose sum is 1 within [1e-5]. *)
Definition simplex32 (probs : list spec_float) : Prop :=
  length probs = OUT_DIM
  /\ Forall (fun p => SFleb f32_zero p = true) probs
  /\ SFleb (SFabs (f32_sub (fold_left f32_add probs f32_zero) (f32_of_Z 1)))
           (f32_div (f32_of_Z 1) (f32_of_Z 100000)) = true.


(** * Properties of the trie *)

Section TrieFacts.

Implicit Types (cur root n : TrieNode) (str path : list ascii).

Lemma insert_loop_depth fuel cur str :
  depth (insert_loop fuel cur str) = depth cur.
Proof. destruct fuel, str; reflexivity. Qed.


Lemma insert_loop_step fuel cur c rest :
  insert_loop (S fuel) cur (c :: rest) =
  {| children := <[c := insert_loop fuel (slot cur c) rest]> (children cur);
     depth := depth cur; is_leaf := is_leaf cur |}.
Proof. reflexivity. Qed.

Lemma insert_loop_stop fuel cur str :
  fuel = 0%nat \/ str = [] ->
  insert_loop fuel cur str =
  {| children := children cur; depth := depth cur; is_leaf := true |}.
Proof. intros [-> | ->]; [|destruct fuel]; reflexivity. Qed.

(** The node at the end of the inserted path is a leaf. *)
Lemma walk_insert_loop fuel cur str :
  exists n, walk (insert_loop fuel cur str) (take fuel str) = Some n
            /\ is_leaf n = true.
Proof.
  revert cur str. induction fuel as [|fuel IH]; intros cur [|c rest];
    try (eexists; split; reflexivity).
  rewrite insert_loop_step. cbn [take walk children].
  rewrite lookup_insert_eq. apply IH.
Qed.


(** Nodes that were there stay, with their depth; a leaf stays a leaf, and
    off the end of the inserted path the flag does not change. *)
Lemma walk_insert_loop_old fuel cur str path n :
  walk cur path = Some n ->
  exists n', walk (insert_loop fuel cur str) path = Some n'
             /\ depth n' = depth n
             /\ (is_leaf n = true -> is_leaf n' = true)
             /\ (path <> take fuel str -> is_leaf n' = is_leaf n).
Proof.
  revert cur str path. induction fuel as [|fuel IH]; intros cur str path Hold.
  - rewrite insert_loop_stop by auto. destruct path as [|c' p].
    + injection Hold as <-. eexists. split; [reflexivity|]. cbn. tauto.
    + cbn in *. exists n. split; [exact Hold|]. tauto.
  - destruct str as [|c rest].
    { rewrite insert_loop_stop by auto. destruct path as [|c' p].
      + injection Hold as <-. eexists. split; [reflexivity|]. cbn. tauto.
      + cbn in *. exists n. split; [exact Hold|]. tauto. }
    rewrite insert_loop_step. destruct path as [|c' p].
    + injection Hold as <-. eexists. split; [reflexivity|]. cbn. split; [reflexivity|]. tauto.
    + cbn [walk children take] in *.
      destruct (decide (c = c')) as [<-|Hne].
      * rewrite lookup_insert_eq. unfold slot.
        destruct (children cur !! c) as [m|]; [|discriminate].
        destruct (IH m rest p Hold) as (n' & Hw & Hd & Hl & Hx).
        exists n'. repeat split; try assumption.
        intros Hp. apply Hx. congruence.
      * rewrite lookup_insert_ne by exact Hne. exists n.
        split; [exact Hold|]. tauto.
Qed.

(** [depth_ok] is kept by the insertion. *)
Lemma insert_loop_depth_ok fuel cur str :
  depth_ok cur -> depth_ok (insert_loop fuel cur str).
Proof.
  revert cur str. induction fuel as [|fuel IH]; intros cur str Hok.
  - rewrite insert_loop_stop by auto. destruct Hok as [t H1 H2]. now constructor.
  - destruct str as [|c rest].
    { rewrite insert_loop_stop by auto. destruct Hok as [t H1 H2]. now constructor. }
    rewrite insert_loop_step.
    assert (Hslot : depth (slot cur c) = (depth cur + 1)%Z /\ depth_ok (slot cur c)).
    { unfold slot. destruct Hok as [t H1 H2].
      destruct (children t !! c) as [m|] eqn:E; [eauto|].
      split; [reflexivity|]. constructor; cbn; intros ? ?; rewrite lookup_empty; discriminate. }
    destruct Hslot as [Hd Hs]. destruct Hok as [t H1 H2].
    constructor; cbn [children depth]; intros c' m Hm.
    + destruct (decide (c = c')) as [<-|Hne].
      * rewrite lookup_insert_eq in Hm. injection Hm as <-.
        now rewrite insert_loop_depth.
      * rewrite lookup_insert_ne in Hm by exact Hne. eauto.
    + destruct (decide (c = c')) as [<-|Hne].
      * rewrite lookup_insert_eq in Hm. injection Hm as <-. now apply IH.
      * rewrite lookup_insert_ne in Hm by exact Hne. eauto.
Qed.

Lemma create_trie_node_depth_ok d : depth_ok (create_trie_node d).
Proof. constructor; cbn; intros ? ?; rewrite lookup_empty; discriminate. Qed.

Lemma fold_trie_insert_invariant (P : TrieNode -> Prop) words root :
  P root -> (forall t s, P t -> P (trie_insert t s)) ->
  P (fold_left trie_insert words root).
Proof.
  intros H0 Hstep. revert root H0.
  induction words as [|w ws IH]; intros root H0.
  - exact H0.
  - exact (IH (trie_insert root w) (Hstep root w H0)).
Qed.

Lemma build_trie_depth_ok words : depth_ok (build_trie words).
Proof.
  apply (fold_trie_insert_invariant depth_ok).
  - apply create_trie_node_depth_ok.
  - intros t s. apply insert_loop_depth_ok.
Qed.

Lemma build_trie_depth words : depth (build_trie words) = 0%Z.
Proof.
  apply (fold_trie_insert_invariant (fun t => depth t = 0%Z)); [reflexivity|].
  intros t s H. unfold trie_insert. now rewrite insert_loop_depth.
Qed.

(** In a [depth_ok] trie the depth field counts the edges from the root. *)
Lemma walk_depth cur path n :
  depth_ok cur -> walk cur path = Some n ->
  depth n = (depth cur + Z.of_nat (length path))%Z /\ depth_ok n.
Proof.
  revert cur. induction path as [|c p IH]; intros cur Hok Hw.
  - injection Hw as <-. split; [cbn; lia|exact Hok].
  - cbn [walk] in Hw. destruct (children cur !! c) as [m|] eqn:E; [|discriminate].
    destruct Hok as [t H1 H2].
    destruct (IH m (H2 _ _ E) Hw) as [Hd Hn]. split; [|exact Hn].
    rewrite Hd, (H1 _ _ E). cbn [length]. lia.
Qed.

(** The depths visited by the forward loop, in a [depth_ok] trie. *)
Lemma visited_depths_seq fuel cur input :
  depth_ok cur ->
  visited_depths fuel cur input =
  map (fun k => (depth cur + Z.of_nat k)%Z) (seq 0 (length (visited_depths fuel cur input))).
Proof.
  revert cur input. induction fuel as [|fuel IH]; intros cur [|c rest] Hok; try reflexivity.
  cbn [visited_depths]. destruct (children cur !! c) as [m|] eqn:E; [|reflexivity].
  cbn [length seq map]. f_equal; [lia|].
  destruct Hok as [t H1 H2]. rewrite (IH m rest (H2 _ _ E)) at 1.
  rewrite <- seq_shift, map_map. apply map_ext. intros k. rewrite (H1 _ _ E). lia.
Qed.

Lemma visited_depths_length_le fuel cur input :
  (length (visited_depths fuel cur input) <= Nat.min (length input) fuel)%nat.
Proof.
  revert cur input. induction fuel as [|fuel IH]; intros cur [|c rest]; cbn; try lia.
  destruct (children cur !! c) as [m|]; cbn; [|lia]. specialize (IH m rest). lia.
Qed.


End TrieFacts.

(** * Properties of the arithmetic *)

Section ListSums.

Local Open Scope R_scope.

Lemma fold_left_Rplus (l : list R) (a : R) :
  fold_left Rplus l a = a + sum_list l.
Proof.
  unfold sum_list. revert a.
  induction l as [|x l IH]; intros a; cbn; [lra|]. rewrite IH. lra.
Qed.

Lemma fold_left_abs (l : list R) (a : R) :
  fold_left (fun s w => s + Rabs w) l a = a + sum_list (map Rabs l).
Proof.
  unfold sum_list. revert a.
  induction l as [|x l IH]; intros a; cbn; [lra|]. rewrite IH. lra.
Qed.

Lemma sum_list_scale (l : list R) (k : R) :
  sum_list (map (fun x => x * k) l) = sum_list l * k.
Proof.
  unfold sum_list. induction l as [|x l IH]; cbn; [lra|]. rewrite IH. lra.
Qed.

Lemma sum_list_div (l : list R) (k : R) :
  sum_list (map (fun x => x / k) l) = sum_list l / k.
Proof. apply sum_list_scale. Qed.

Lemma sum_list_pos (l : list R) :
  l <> [] -> Forall (fun x => 0 < x) l -> 0 < sum_list l.
Proof.
  intros Hne Hall. unfold sum_list.
  destruct Hall as [|x l Hx Hl]; [congruence|]. cbn.
  assert (0 <= foldr Rplus 0 l); [|lra].
  clear Hne. induction Hl as [|y l Hy Hl IH]; cbn; lra.
Qed.

Lemma map_abs_scale (l : list R) (k : R) :
  0 <= k -> map Rabs (map (fun x => x * k) l) = map (fun x => x * k) (map Rabs l).
Proof.
  intros Hk. rewrite !map_map. apply map_ext. intros x.
  rewrite Rabs_mult, (Rabs_pos_eq k Hk). reflexivity.
Qed.

Lemma nth_map_seq {B} (f : nat -> B) (n i : nat) (d : B) :
  (i < n)%nat -> nth i (map f (seq 0 n)) d = f i.
Proof.
  intros Hi. rewrite (nth_indep _ d (f 0%nat)) by (now rewrite length_map, length_seq).
  rewrite (map_nth f), seq_nth by exact Hi. reflexivity.
Qed.

End ListSums.

(** * Properties of the monadic loops *)

Section Loops.

Context (rs : RandSource).

Local Open Scope R_scope.

Lemma fdiv_ok (x y : R) : y <> 0 -> fdiv x y = Ok (x / y).
Proof. intros Hy. unfold fdiv. now destruct (Req_dec_T y 0). Qed.

Lemma half_RAND_MAX_pos : (0 < IZR (Z.quot (RAND_MAX rs) 2)).
Proof.
  apply IZR_lt. pose proof (RAND_MAX_min rs).
  rewrite Z.quot_div_nonneg by lia.
  apply Z.div_str_pos. lia.
Qed.

Lemma rand_float_of_ok (r : Z) :
  rand_float_of rs r = Ok (IZR r / IZR (Z.quot (RAND_MAX rs) 2) - 1).
Proof.
  unfold rand_float_of. rewrite fdiv_ok; [reflexivity|].
  pose proof half_RAND_MAX_pos. lra.
Qed.

Lemma advance_0 g : advance g 0 = g.
Proof. destruct g. unfold advance. cbn. now rewrite Nat.add_0_r. Qed.

Lemma advance_advance g a b : advance (advance g a) b = advance g (a + b).
Proof. unfold advance. cbn. f_equal. lia. Qed.

Lemma draw_advance g a n : draw rs (advance g a) n = draw rs g (a + n).
Proof. unfold draw, advance. cbn. now rewrite Nat.add_assoc. Qed.

Lemma rand_float_run g : rand_float rs g = Ok (draw rs g 0, advance g 1).
Proof.
  unfold rand_float, bind, rand, lift. rewrite rand_float_of_ok.
  unfold draw, advance. now rewrite Nat.add_0_r, Nat.add_1_r.
Qed.

(** A loop whose body draws once from [rand_float]. *)
Lemma for_each_draw {B} (body : nat -> M B) (F : nat -> R -> B) :
  (forall i g, body i g = Ok (F i (draw rs g 0), advance g 1)) ->
  forall a k g,
    for_each body (seq a k) g =
    Ok (map (fun i => F i (draw rs g (i - a))) (seq a k), advance g k).
Proof.
  intros Hbody a k. revert a. induction k as [|k IH]; intros a g.
  - cbn. now rewrite advance_0.
  - cbn [seq for_each map]. unfold bind at 1. rewrite Hbody.
    unfold bind at 1. rewrite IH. unfold ret.
    rewrite advance_advance. f_equal. f_equal. f_equal.
    + now rewrite Nat.sub_diag.
    + apply map_ext_in. intros i Hi. apply in_seq in Hi.
      rewrite draw_advance. do 2 f_equal. lia.
Qed.

(** A loop whose body neither faults nor touches the globals. *)
Lemma for_each_pure {A B} (body : A -> M B) (F : A -> B) (l : list A) g :
  (forall a, In a l -> body a g = Ok (F a, g)) ->
  for_each body l g = Ok (map F l, g).
Proof.
  induction l as [|a l IH]; intros Hbody; [reflexivity|].
  cbn [for_each map]. unfold bind at 1. rewrite Hbody by now left.
  unfold bind at 1. rewrite IH; [reflexivity|].
  intros b Hb. apply Hbody. now right.
Qed.

Lemma exp_sum_pos (x : R) : exp x + exp (- x) <> 0.
Proof. pose proof (exp_pos x). pose proof (exp_pos (- x)). lra. Qed.

Lemma activate_tanh_ok (x : R) : activate_tanh x = Ok (tanh x).
Proof.
  unfold activate_tanh. rewrite fdiv_ok by apply exp_sum_pos.
  f_equal. unfold tanh, sinh, cosh. field. apply exp_sum_pos.
Qed.

(** [reservoir_update] in closed form: 64 draws, no fault. *)
Lemma reservoir_update_run (Wl h : list R) g :
  reservoir_update rs Wl h g =
  Ok (map (fun i => ALPHA * tanh (row_dot Wl h i + NOISE * draw rs g i))
          (seq 0 RESERVOIR_SIZE),
      advance g RESERVOIR_SIZE).
Proof.
  unfold reservoir_update. unfold bind at 1.
  rewrite (for_each_draw _ (fun i n => nth i (matvec Wl h) 0 + NOISE * n)).
  2:{ intros i g0. unfold bind. rewrite rand_float_run. reflexivity. }
  rewrite (for_each_pure _ (fun i => ALPHA * tanh (row_dot Wl h i + NOISE * draw rs g i))).
  - reflexivity.
  - intros i Hi. apply in_seq in Hi. unfold bind, lift, ret.
    rewrite activate_tanh_ok. do 3 f_equal.
    rewrite (nth_map_seq (fun i => nth i (matvec Wl h) 0 + NOISE * draw rs g (i - 0)))
      by lia.
    unfold matvec. rewrite nth_map_seq by lia. now rewrite Nat.sub_0_r.
Qed.

(** The forward loop is one update per visited depth. *)
Lemma forward_loop_run_updates fuel cur input h g :
  forward_loop rs fuel cur input h g =
  run_updates rs (visited_depths fuel cur input) h g.
Proof.
  revert cur input h g. induction fuel as [|fuel IH]; intros cur [|c rest] h g;
    try reflexivity.
  cbn [forward_loop visited_depths].
  destruct (children cur !! c) as [m|]; [|reflexivity].
  cbn [run_updates]. unfold bind.
  destruct (weights_at (depth cur) g) as [[Wl g1]|]; [|reflexivity].
  destruct (reservoir_update rs Wl h g1) as [[h' g2]|]; [|reflexivity].
  apply IH.
Qed.

Lemma weights_at_ok (l : Z) g :
  (0 <= l < Z.of_nat (length (reservoir_weights g)))%Z ->
  exists Wl, weights_at l g = Ok (Wl, g) /\ reservoir_weights g !! Z.to_nat l = Some Wl.
Proof.
  intros Hl. unfold weights_at.
  destruct (Z.ltb_spec l 0); [lia|].
  destruct (lookup_lt_is_Some_2 (reservoir_weights g) (Z.to_nat l)) as [Wl HW]; [lia|].
  exists Wl. now rewrite HW.
Qed.

(** With every depth inside the bank, the updates all succeed; each draws
    [RESERVOIR_SIZE] numbers and leaves the weights alone. *)
Lemma run_updates_ok depths h g :
  Forall (fun l => (0 <= l < Z.of_nat (length (reservoir_weights g)))%Z) depths ->
  exists h', run_updates rs depths h g =
             Ok (h', advance g (length depths * RESERVOIR_SIZE)).
Proof.
  revert h g. induction depths as [|l ls IH]; intros h g Hall.
  - exists h. cbn. now rewrite advance_0.
  - inversion Hall as [|? ? Hl Hls]; subst.
    destruct (weights_at_ok l g Hl) as (Wl & HW & _).
    cbn [run_updates]. unfold bind. rewrite HW, reservoir_update_run.
    destruct (IH (map (fun i => ALPHA * tanh (row_dot Wl h i + NOISE * draw rs g i))
                      (seq 0 RESERVOIR_SIZE))
                 (advance g RESERVOIR_SIZE) Hls) as (h' & Hrun).
    exists h'. rewrite Hrun, advance_advance. reflexivity.
Qed.

End Loops.

(** * The trie: insertion *)

Section TrieInsertion.

Implicit Types (cur root n : TrieNode) (str path : list ascii).

Lemma node_eta cur :
  {| children := children cur; depth := depth cur; is_leaf := is_leaf cur |} = cur.
Proof. now destruct cur. Qed.

(** Once the end of the path of [str] is a leaf, inserting [str] changes
    nothing. *)
Lemma insert_loop_present fuel cur str n :
  walk cur (take fuel str) = Some n -> is_leaf n = true ->
  insert_loop fuel cur str = cur.
Proof.
  revert cur str. induction fuel as [|fuel IH]; intros cur str Hw Hl.
  - rewrite insert_loop_stop by auto. cbn in Hw. injection Hw as <-.
    rewrite <- Hl. apply node_eta.
  - destruct str as [|c rest].
    { rewrite insert_loop_stop by auto. cbn in Hw. injection Hw as <-.
      rewrite <- Hl. apply node_eta. }
    rewrite insert_loop_step. cbn [take walk] in Hw. unfold slot.
    destruct (children cur !! c) as [m|] eqn:E; [|discriminate].
    rewrite (IH m rest Hw Hl), insert_id by exact E. apply node_eta.
Qed.

(** A string stays inserted while others are. *)
Lemma inserted_stable words root str :
  (exists n, walk root (take MAX_DEPTH str) = Some n /\ is_leaf n = true) ->
  exists n, walk (fold_left trie_insert words root) (take MAX_DEPTH str) = Some n
            /\ is_leaf n = true.
Proof.
  intros Hroot.
  apply (fold_trie_insert_invariant
           (fun t => exists n, walk t (take MAX_DEPTH str) = Some n /\ is_leaf n = true));
    [exact Hroot|].
  intros t s (n & Hw & Hl).
  destruct (walk_insert_loop_old MAX_DEPTH t s _ n Hw) as (n' & Hw' & _ & Hl' & _).
  exists n'. split; [exact Hw'|]. now apply Hl'.
Qed.


Lemma build_trie_walk_depth words path n :
  walk (build_trie words) path = Some n ->
  depth n = Z.of_nat (length path) /\ depth_ok n.
Proof.
  intros Hw.
  destruct (walk_depth _ _ _ (build_trie_depth_ok words) Hw) as [Hd Hok].
  rewrite build_trie_depth in Hd. split; [lia|exact Hok].
Qed.

End TrieInsertion.

(** C10: [trie_insert] is idempotent.  Inserting a string that was inserted
    before, whatever was inserted since, returns the very same trie: no
    node is created and no depth, leaf flag or child changes. *)
Theorem trie_insert_idempotent (root : TrieNode) (str : list ascii)
    (later : list (list ascii)) :
  let t := fold_left trie_insert later (trie_insert root str) in
  trie_insert t str = t.
Proof.
  cbn zeta.
  destruct (inserted_stable later (trie_insert root str) str) as (n & Hw & Hl).
  { apply walk_insert_loop. }
  exact (insert_loop_present MAX_DEPTH _ str n Hw Hl).
Qed.



(** * The forward traversal *)

Section Forward.

Context (rs : RandSource).

Implicit Types (cur root n : TrieNode) (input prefix rest : list ascii).



(** In a trie built by [main]'s sequence the [k]-th update is at depth [k]. *)
Lemma build_trie_visited_depths words input :
  exists k, (k <= Nat.min (length input) MAX_DEPTH)%nat
            /\ visited_depths MAX_DEPTH (build_trie words) input = map Z.of_nat (seq 0 k).
Proof.
  exists (length (visited_depths MAX_DEPTH (build_trie words) input)).
  split; [apply visited_depths_length_le|].
  rewrite (visited_depths_seq _ _ _ (build_trie_depth_ok words)) at 1.
  apply map_ext. intros k. rewrite build_trie_depth. lia.
Qed.

Lemma build_trie_visited_depths_bound words input :
  Forall (fun l => (0 <= l < Z.of_nat MAX_DEPTH)%Z)
         (visited_depths MAX_DEPTH (build_trie words) input).
Proof.
  destruct (build_trie_visited_depths words input) as (k & Hk & ->).
  apply List.Forall_forall. intros l Hl. apply in_map_iff in Hl.
  destruct Hl as (i & <- & Hi). apply in_seq in Hi. lia.
Qed.

(** With a bank of [MAX_DEPTH] matrices the traversal of a built trie
    commits no fault. *)
Lemma build_trie_forward_ok words input h g :
  length (reservoir_weights g) = MAX_DEPTH ->
  exists h',
    trie_reservoir_forward rs (build_trie words) input h g =
    Ok (h', advance g (length (visited_depths MAX_DEPTH (build_trie words) input)
                       * RESERVOIR_SIZE)).
Proof.
  intros Hbank. unfold trie_reservoir_forward. rewrite forward_loop_run_updates.
  apply run_updates_ok. rewrite Hbank. apply build_trie_visited_depths_bound.
Qed.

End Forward.



(** C8: in a trie built by [trie_insert] from a root of depth 0 every
    populated child is one level below its parent, so a node is as deep as
    its path is long and the [k]-th update of a traversal is at depth [k];
    the depths used to pick a matrix are then in [0, MAX_DEPTH), and with a
    bank of [MAX_DEPTH] matrices the traversal commits no out-of-bounds
    access (nor any other fault). *)
Theorem depth_index_in_bounds (rs : RandSource) (words : list (list ascii))
    (input : list ascii) (h : list R) (g : Globals) :
  let root := build_trie words in
  (forall path n c m, walk root path = Some n -> children n !! c = Some m ->
      depth m = (depth n + 1)%Z)
  /\ (forall path n, walk root path = Some n -> depth n = Z.of_nat (length path))
  /\ (exists k, (k <= Nat.min (length input) MAX_DEPTH)%nat
                /\ visited_depths MAX_DEPTH root input = map Z.of_nat (seq 0 k))
  /\ Forall (fun l => (0 <= l < Z.of_nat MAX_DEPTH)%Z) (visited_depths MAX_DEPTH root input)
  /\ (length (reservoir_weights g) = MAX_DEPTH ->
      exists h' g', trie_reservoir_forward rs root input h g = Ok (h', g')).
Proof.
  cbn zeta. split; [|split; [|split; [|split]]].
  - intros path n c m Hw Hm.
    destruct (build_trie_walk_depth _ _ _ Hw) as [_ Hok].
    destruct Hok as [t H1 _]. exact (H1 c m Hm).
  - intros path n Hw. now destruct (build_trie_walk_depth _ _ _ Hw).
  - apply build_trie_visited_depths.
  - apply build_trie_visited_depths_bound.
  - intros Hbank.
    destruct (build_trie_forward_ok rs words input h g Hbank) as (h' & Hrun).
    eauto.
Qed.

(** The theorem at the trie of [main], the input "hello" and a bank of
    [MAX_DEPTH] matrices. *)
Lemma depth_index_in_bounds_witness :
  let words := map list_ascii_of_string ["hello"; "help"; "helium"; "cat"; "dog"]%string in
  length (reservoir_weights zero_globals) = MAX_DEPTH
  /\ exists h' g',
       trie_reservoir_forward top_source_15 (build_trie words)
         (list_ascii_of_string "hello") (repeat 0%R RESERVOIR_SIZE) zero_globals
       = Ok (h', g').
Proof.
  cbn zeta. split; [reflexivity|].
  destruct (depth_index_in_bounds top_source_15
              (map list_ascii_of_string ["hello"; "help"; "helium"; "cat"; "dog"]%string)
              (list_ascii_of_string "hello") (repeat 0%R RESERVOIR_SIZE) zero_globals)
    as (_ & _ & _ & _ & Hok).
  apply Hok. reflexivity.
Defined.

(** * The readout layer *)

Section Readout.

Local Open Scope R_scope.

Lemma softmax_length (z : list R) : length (softmax z) = length z.
Proof. unfold softmax. now rewrite length_map. Qed.

Lemma sum_exp_pos (z : list R) : z <> [] -> 0 < sum_list (map exp z).
Proof.
  intros Hz. apply sum_list_pos.
  - destruct z; [congruence|discriminate].
  - apply List.Forall_forall. intros e He. apply in_map_iff in He.
    destruct He as (x & <- & _). apply exp_pos.
Qed.

Lemma softmax_pos (z : list R) : Forall (fun p => 0 < p) (softmax z).
Proof.
  destruct z as [|x z]; [constructor|].
  apply List.Forall_forall. intros p Hp. apply in_map_iff in Hp.
  destruct Hp as (y & <- & _).
  apply Rdiv_lt_0_compat; [apply exp_pos|]. now apply sum_exp_pos.
Qed.

Lemma softmax_sum (z : list R) : z <> [] -> sum_list (softmax z) = 1.
Proof.
  intros Hz. pose proof (sum_exp_pos z Hz) as Hpos. unfold softmax.
  rewrite <- (map_map exp (fun e => e / sum_list (map exp z))).
  rewrite sum_list_div. field. lra.
Qed.

Lemma logits_nonempty W h : logits W h <> [].
Proof. discriminate. Qed.

(** [readout_forward] computes the softmax of the logits and leaves the
    globals as they are. *)
Lemma readout_forward_run (h : list R) (g : Globals) :
  readout_forward h g = Ok (softmax (logits (readout_weights g) h), g).
Proof.
  unfold readout_forward, bind, get.
  set (exps := map (fun i => exp (logit (readout_weights g) h i)) (seq 0 OUT_DIM)).
  assert (Hexps : exps = map exp (logits (readout_weights g) h))
    by (unfold exps, logits; now rewrite map_map).
  assert (Hsum : fold_left Rplus exps 0 = sum_list exps)
    by (rewrite fold_left_Rplus; lra).
  assert (Hpos : 0 < sum_list exps)
    by (rewrite Hexps; apply sum_exp_pos, logits_nonempty).
  rewrite (for_each_pure _ (fun i => nth i exps 0 / sum_list exps)).
  - reflexivity.
  - intros i _. unfold lift. rewrite Hsum, fdiv_ok by lra. reflexivity.
Qed.

(** [readout_train] in closed form. *)
Lemma readout_train_run (h : list R) (gold_index : Z) (lr : R) (g : Globals) :
  readout_train h gold_index lr g =
  Ok (tt, {| reservoir_weights := reservoir_weights g;
             readout_weights :=
               map (fun i =>
                      map (fun j => nth j (nth i (readout_weights g) []) 0
                                    - lr * gradient (softmax (logits (readout_weights g) h))
                                                    gold_index i
                                         * nth j h 0)
                          (seq 0 RESERVOIR_SIZE))
                   (seq 0 OUT_DIM);
             rand_seed := rand_seed g;
             rand_count := rand_count g |}).
Proof.
  unfold readout_train, bind. rewrite readout_forward_run. reflexivity.
Qed.

End Readout.

(** * The readout at the edge of the [float] range *)

Section ReadoutRange.

Local Open Scope R_scope.

Lemma Rabs_le_bounds (x b : R) : Rabs x <= b -> - b <= x <= b.
Proof. unfold Rabs. destruct (Rcase_abs x); lra. Qed.

(** A sum accumulated term by term stays within the sum of the absolute
    values of its terms. *)
Lemma fold_left_abs_bound {A} (f : A -> R) (l : list A) (a : R) :
  Rabs (fold_left (fun z j => z + f j) l a)
  <= Rabs a + sum_list (map (fun j => Rabs (f j)) l).
Proof.
  unfold sum_list. revert a. induction l as [|x l IH]; intros a; cbn [fold_left map foldr].
  - lra.
  - pose proof (IH (a + f x)) as H. pose proof (Rabs_triang a (f x)). lra.
Qed.

Lemma logit_abs_le (W : list (list R)) (h : list R) (i : nat) :
  Rabs (logit W h i) <= abs_logit W h i.
Proof.
  unfold logit, abs_logit.
  pose proof (fold_left_abs_bound (fun j => nth j (nth i W []) 0 * nth j h 0)
                (seq 0 RESERVOIR_SIZE) 0) as H.
  rewrite Rabs_R0 in H. lra.
Qed.


Lemma sum_list_zero {A} (f : A -> R) (l : list A) :
  (forall x, In x l -> f x = 0) -> sum_list (map f l) = 0.
Proof.
  unfold sum_list. induction l as [|x l IH]; intros H; cbn [map foldr]; [reflexivity|].
  rewrite (H x) by now left. rewrite IH; [lra|]. intros y Hy. apply H. now right.
Qed.

Lemma abs_row_dot_zero_state (W : list R) (n i : nat) :
  abs_row_dot W (repeat 0 n) i = 0.
Proof.
  unfold abs_row_dot. apply sum_list_zero. intros j _.
  rewrite nth_repeat, Rmult_0_r. apply Rabs_R0.
Qed.

Lemma abs_logit_zero_weights (h : list R) (i : nat) :
  (i < OUT_DIM)%nat -> abs_logit (readout_weights zero_globals) h i = 0.
Proof.
  intros Hi. unfold abs_logit. apply sum_list_zero. intros j _.
  assert (Hrow : nth i (readout_weights zero_globals) [] = repeat 0 RESERVOIR_SIZE).
  { unfold OUT_DIM in Hi. destruct i as [|[|[|[|i]]]]; [reflexivity .. | lia]. }
  rewrite Hrow, nth_repeat, Rmult_0_l. apply Rabs_R0.
Qed.

End ReadoutRange.

Section ReadoutOverflow.

(** With weights all 2 and a state of ones every logit is exactly 128. *)
Lemma logit32_twos_ones (i : nat) :
  (i < OUT_DIM)%nat ->
  logit32 (repeat (repeat (f32_of_Z 2) RESERVOIR_SIZE) OUT_DIM)
          (repeat (f32_of_Z 1) RESERVOIR_SIZE) i
  = f32_of_Z 128.
Proof.
  intros Hi. unfold OUT_DIM in Hi.
  destruct i as [|[|[|[|i]]]]; [vm_compute; reflexivity .. | lia].
Qed.

(** There [expf] overflows in every unit, the sum is infinite and every
    quotient is infinity over infinity. *)
Lemma readout_forward32_overflow (expf : spec_float -> spec_float) :
  expf_overflows expf ->
  readout_forward32 expf (repeat (repeat (f32_of_Z 2) RESERVOIR_SIZE) OUT_DIM)
                    (repeat (f32_of_Z 1) RESERVOIR_SIZE)
  = repeat S754_nan OUT_DIM.
Proof.
  intros He. unfold readout_forward32.
  assert (Hexps : map (fun i => expf (logit32 (repeat (repeat (f32_of_Z 2) RESERVOIR_SIZE)
                                                      OUT_DIM)
                                              (repeat (f32_of_Z 1) RESERVOIR_SIZE) i))
                      (seq 0 OUT_DIM)
                  = repeat (S754_infinity false) OUT_DIM).
  { change (seq 0 OUT_DIM) with [0; 1; 2; 3]%nat. cbn [map].
    rewrite !logit32_twos_ones by (unfold OUT_DIM; lia).
    rewrite (He (f32_of_Z 128)) by (vm_compute; reflexivity). reflexivity. }
  rewrite Hexps. vm_compute. reflexivity.
Qed.

Lemma nan_not_simplex32 : ~ simplex32 (repeat S754_nan OUT_DIM).
Proof.
  intros (_ & Hnn & _). inversion Hnn as [|p l Hp _]. vm_compute in Hp. discriminate.
Qed.

End ReadoutOverflow.

(** C1 as stated fails in binary32: with readout weights all [2.0f] and a
    state of ones every logit is 128, [expf] overflows to infinity, and
    [readout_forward] returns four NaN, which are not non-negative numbers
    summing to 1.  This holds for every [expf] that overflows above 89, as
    the C library's does. *)
Lemma readout_forward_overflow :
  exists W h,
    W = repeat (repeat (f32_of_Z 2) RESERVOIR_SIZE) OUT_DIM
    /\ h = repeat (f32_of_Z 1) RESERVOIR_SIZE
    /\ forall expf, expf_overflows expf ->
         readout_forward32 expf W h = repeat S754_nan OUT_DIM
         /\ ~ simplex32 (readout_forward32 expf W h).
Proof.
  do 2 eexists. split; [reflexivity|]. split; [reflexivity|].
  intros expf He. rewrite (readout_forward32_overflow expf He).
  split; [reflexivity|apply nan_not_simplex32].
Qed.

(** C1, amended: when every logit is a sum of terms whose absolute values
    add up to 87 at most, so that no partial sum leaves [-87, 87] and
    [expf] neither overflows nor underflows, [readout_forward] returns,
    without fault and without touching the globals, [OUT_DIM] values that
    are non-negative and sum to 1; they are the softmax of the logits.  The
    sum is exactly 1 on real numbers, hence within the tolerance up to
    rounding. *)
Theorem readout_forward_simplex (h_state : list R) (g : Globals) :
  (forall i, (i < OUT_DIM)%nat -> (abs_logit (readout_weights g) h_state i <= 87)%R) ->
  exists probs,
    readout_forward h_state g = Ok (probs, g)
    /\ probs = softmax (logits (readout_weights g) h_state)
    /\ Forall (fun z => (-87 <= z <= 87)%R) (logits (readout_weights g) h_state)
    /\ length probs = OUT_DIM
    /\ Forall (fun p => (0 <= p)%R) probs
    /\ sum_list probs = 1%R.
Proof.
  intros Hrange.
  exists (softmax (logits (readout_weights g) h_state)).
  split; [apply readout_forward_run|]. split; [reflexivity|]. split.
  { apply List.Forall_forall. intros z Hz. unfold logits in Hz.
    apply in_map_iff in Hz. destruct Hz as (i & <- & Hi). apply in_seq in Hi.
    pose proof (logit_abs_le (readout_weights g) h_state i) as Hle.
    pose proof (Hrange i ltac:(lia)) as Hi'.
    apply Rabs_le_bounds. lra. }
  split; [now rewrite softmax_length; unfold logits; rewrite length_map, length_seq|].
  split.
  - eapply Forall_impl; [apply softmax_pos|]. intros p Hp. cbn in Hp. lra.
  - apply softmax_sum, logits_nonempty.
Qed.

(** C1 amended, at a state of ones and readout weights all zero. *)
Lemma readout_forward_simplex_witness :
  exists probs,
    readout_forward (repeat 1%R RESERVOIR_SIZE) zero_globals = Ok (probs, zero_globals)
    /\ length probs = OUT_DIM
    /\ Forall (fun p => (0 <= p)%R) probs
    /\ sum_list probs = 1%R.
Proof.
  destruct (readout_forward_simplex (repeat 1%R RESERVOIR_SIZE) zero_globals)
    as (probs & Hrun & _ & _ & Hlen & Hpos & Hsum).
  - intros i Hi. rewrite abs_logit_zero_weights by exact Hi. lra.
  - exists probs. repeat split; assumption.
Defined.

(** C4: any number of [readout_train] calls, with any state vectors, gold
    indices and learning rates, runs without fault and changes the readout
    matrix only: the bank of reservoir matrices is the one before the
    calls, as is the state of the random source.  Each state vector is a
    read-only argument ([const float*]) of the call. *)
Theorem train_steps_frame (calls : list (list R * Z * R)) (g : Globals) :
  exists g',
    train_steps calls g = Ok (tt, g')
    /\ reservoir_weights g' = reservoir_weights g
    /\ rand_seed g' = rand_seed g
    /\ rand_count g' = rand_count g.
Proof.
  revert g. induction calls as [|[[h gold] lr] calls IH]; intros g.
  - exists g. repeat split.
  - cbn [train_steps]. unfold bind. rewrite readout_train_run.
    match goal with |- context [train_steps calls ?g1] =>
      destruct (IH g1) as (g' & Hrun & Hw & Hs & Hc) end.
    exists g'. rewrite Hrun. repeat split; assumption.
Qed.

(** C5: [readout_train] first runs [readout_forward] on the state vector,
    with the weights as they are before the call, and then replaces every
    entry [readout_weights[i][j]] by
    [readout_weights[i][j] - lr * g_i * h_state[j]], where [g_i] is
    [probs[i] - 1] for the gold index and [probs[i]] for the others.  This
    holds for any gold index, inside [0, OUT_DIM) or not. *)
Theorem readout_train_update (h_state : list R) (gold_index : Z) (lr : R)
    (g : Globals) :
  exists probs g',
    readout_forward h_state g = Ok (probs, g)
    /\ readout_train h_state gold_index lr g = Ok (tt, g')
    /\ forall i j, (i < OUT_DIM)%nat -> (j < RESERVOIR_SIZE)%nat ->
         nth j (nth i (readout_weights g') []) 0%R
         = (nth j (nth i (readout_weights g) []) 0
            - lr * (if (Z.of_nat i =? gold_index)%Z
                    then nth i probs 0 - 1 else nth i probs 0)
              * nth j h_state 0)%R.
Proof.
  eexists. eexists.
  split; [apply readout_forward_run|]. split; [apply readout_train_run|].
  intros i j Hi Hj. cbn [readout_weights].
  rewrite (nth_map_seq _ OUT_DIM i []) by exact Hi.
  rewrite (nth_map_seq _ RESERVOIR_SIZE j 0%R) by exact Hj.
  reflexivity.
Qed.

(** The theorem at a state vector of ones, the gold index 1, the learning
    rate 1/100 and weights all zero: entry [1][2]. *)
Lemma readout_train_update_witness :
  let g := {| reservoir_weights := []; readout_weights := [];
              rand_seed := 1; rand_count := 0 |} in
  exists probs g',
    readout_forward (repeat 1%R RESERVOIR_SIZE) g = Ok (probs, g)
    /\ readout_train (repeat 1%R RESERVOIR_SIZE) 1 (1 / 100)%R g = Ok (tt, g')
    /\ nth 2 (nth 1 (readout_weights g') []) 0%R
       = (0 - 1 / 100 * (nth 1 probs 0 - 1) * 1)%R.
Proof.
  cbn zeta.
  destruct (readout_train_update (repeat 1%R RESERVOIR_SIZE) 1 (1 / 100)%R
              {| reservoir_weights := []; readout_weights := [];
                 rand_seed := 1; rand_count := 0 |}) as (probs & g' & Hf & Ht & Hw).
  exists probs, g'. split; [exact Hf|]. split; [exact Ht|].
  apply (Hw 1%nat 2%nat); unfold OUT_DIM, RESERVOIR_SIZE; lia.
Defined.

(** * Initialisation of the reservoir bank *)

Section ReservoirInit.

Context (rs : RandSource).

Local Open Scope R_scope.

Lemma matrix_size_pos : 0 < INR (RESERVOIR_SIZE * RESERVOIR_SIZE).
Proof. apply lt_0_INR. unfold RESERVOIR_SIZE. lia. Qed.

(** Scaling by a positive factor scales the mean absolute entry. *)
Lemma mean_abs_scale (raw : list R) (k : R) :
  0 <= k -> mean_abs (map (fun w => w * k) raw) = mean_abs raw * k.
Proof.
  intros Hk. unfold mean_abs.
  rewrite map_abs_scale by exact Hk. rewrite sum_list_scale, length_map.
  unfold Rdiv. ring.
Qed.

Lemma samples_length g :
  length (samples rs g) = (RESERVOIR_SIZE * RESERVOIR_SIZE)%nat.
Proof. unfold samples. now rewrite length_map, length_seq. Qed.

(** One matrix: no fault, and the scaling step as [scaled_from] says. *)
Lemma init_reservoir_matrix_run g :
  exists scale,
    init_reservoir_matrix rs g =
    Ok (map (fun w => w * scale) (samples rs g),
        advance g (RESERVOIR_SIZE * RESERVOIR_SIZE))
    /\ scaled_from (samples rs g) scale (map (fun w => w * scale) (samples rs g)).
Proof.
  pose proof matrix_size_pos as Hsize.
  assert (Havg : fold_left (fun s w => s + Rabs w) (samples rs g) 0
                 / INR (RESERVOIR_SIZE * RESERVOIR_SIZE) = mean_abs (samples rs g)).
  { unfold mean_abs. rewrite fold_left_abs, samples_length. f_equal. lra. }
  unfold init_reservoir_matrix. unfold bind at 1.
  rewrite (for_each_draw rs (fun _ => rand_float rs) (fun _ n => n))
    by (intros; apply rand_float_run).
  fold (samples rs g). unfold bind at 1, lift at 1.
  rewrite fdiv_ok by lra. rewrite Havg. unfold bind at 1.
  destruct (Rlt_dec EPSILON (mean_abs (samples rs g))) as [Hbig|Hsmall].
  - assert (Hpos : 0 < mean_abs (samples rs g)) by (unfold EPSILON in Hbig; lra).
    unfold lift. rewrite fdiv_ok by lra.
    exists (RHO / mean_abs (samples rs g)). split; [reflexivity|].
    split; [reflexivity|]. split; [apply samples_length|]. split; [|tauto].
    intros _. rewrite mean_abs_scale.
    + field. lra.
    + apply Rlt_le, Rdiv_lt_0_compat; [unfold RHO; lra|exact Hpos].
  - exists 1. split; [reflexivity|].
    split; [reflexivity|]. split; [apply samples_length|]. split; [tauto|reflexivity].
Qed.

(** The outer loop: matrix [l] is made from the samples drawn after the
    [l] matrices before it. *)
Lemma init_bank_run (n : nat) : forall (a : nat) (g : Globals),
  exists bank,
    for_each (fun _ => init_reservoir_matrix rs) (seq a n) g =
    Ok (bank, advance g (n * (RESERVOIR_SIZE * RESERVOIR_SIZE)))
    /\ length bank = n
    /\ forall (l : nat) W, bank !! l = Some W ->
         exists scale,
           scaled_from (samples rs (advance g (l * (RESERVOIR_SIZE * RESERVOIR_SIZE))))
                       scale W.
Proof.
  induction n as [|n IH]; intros a g.
  - exists []. change (0 * (RESERVOIR_SIZE * RESERVOIR_SIZE))%nat with 0%nat.
    rewrite advance_0. split; [reflexivity|]. split; [reflexivity|].
    intros l W Hl. destruct l; discriminate.
  - destruct (init_reservoir_matrix_run g) as (scale & Hrun & Hsc).
    destruct (IH (S a) (advance g (RESERVOIR_SIZE * RESERVOIR_SIZE)))
      as (bank & Hbank & Hlen & Hall).
    revert Hrun Hsc. generalize (map (fun w => w * scale) (samples rs g)).
    intros W0 Hrun Hsc.
    exists (W0 :: bank). cbn [seq for_each]. unfold bind at 1. rewrite Hrun.
    unfold bind at 1. rewrite Hbank. unfold ret. rewrite advance_advance.
    split; [reflexivity|]. split; [cbn [length]; now rewrite Hlen|].
    intros [|l] W Hl.
    + change ((W0 :: bank) !! 0%nat) with (Some W0) in Hl. injection Hl as <-.
      exists scale.
      change (0 * (RESERVOIR_SIZE * RESERVOIR_SIZE))%nat with 0%nat.
      rewrite advance_0. exact Hsc.
    + change ((W0 :: bank) !! S l) with (bank !! l) in Hl.
      destruct (Hall l W Hl) as (sc & Hsc'). exists sc.
      rewrite advance_advance in Hsc'. exact Hsc'.
Qed.

End ReservoirInit.

(** C7: [init_reservoir_weights] commits no fault, so nowhere divides by
    zero, and fills the bank with [depth_count] matrices.  Matrix [l] is
    its [RESERVOIR_SIZE²] samples, the draws that follow those of the
    matrices before it, times a scale factor such that: if the mean
    absolute sample exceeds the threshold [1e-5], the mean absolute entry
    after scaling is [RHO]; otherwise the factor is 1.  With real numbers
    for [float] the mean is [RHO] exactly. *)
Theorem init_reservoir_weights_scaling (rs : RandSource) (depth_count now : Z)
    (g : Globals) :
  let g0 := seeded g (now mod 2 ^ 32) in
  let size := (RESERVOIR_SIZE * RESERVOIR_SIZE)%nat in
  exists bank,
    init_reservoir_weights rs depth_count now g =
    Ok (tt, {| reservoir_weights := bank;
               readout_weights := readout_weights g;
               rand_seed := (now mod 2 ^ 32)%Z;
               rand_count := Z.to_nat depth_count * size |})
    /\ length bank = Z.to_nat depth_count
    /\ forall (l : nat) W, bank !! l = Some W ->
         exists scale, scaled_from (samples rs (advance g0 (l * size))) scale W.
Proof.
  cbn zeta.
  destruct (init_bank_run rs (Z.to_nat depth_count) 0 (seeded g (now mod 2 ^ 32)))
    as (bank & Hrun & Hlen & Hall).
  exists bank. split; [|split; [exact Hlen|exact Hall]].
  unfold init_reservoir_weights, bind at 1, srand. fold (seeded g (now mod 2 ^ 32)).
  unfold bind at 1. rewrite Hrun. reflexivity.
Qed.

(** * The sampler [rand_float] *)

Section RandFloat.

Context (rs : RandSource).

Local Open Scope R_scope.

(** The value is never below -1, and never above 1 by more than one step
    of the grid. *)
Lemma rand_float_of_range (r : Z) :
  (0 <= r <= RAND_MAX rs)%Z ->
  exists v, rand_float_of rs r = Ok v
            /\ -1 <= v <= 1 + 1 / IZR (Z.quot (RAND_MAX rs) 2).
Proof.
  intros Hr. eexists. split; [apply rand_float_of_ok|].
  pose proof (half_RAND_MAX_pos rs) as Hq.
  pose proof (RAND_MAX_min rs) as Hmin.
  assert (Hr0 : 0 <= IZR r) by (apply IZR_le; lia).
  assert (Hr1 : IZR r <= 2 * IZR (Z.quot (RAND_MAX rs) 2) + 1).
  { rewrite <- mult_IZR, <- plus_IZR. apply IZR_le.
    rewrite Z.quot_div_nonneg by lia.
    pose proof (Z.div_mod (RAND_MAX rs) 2 ltac:(lia)).
    pose proof (Z.mod_pos_bound (RAND_MAX rs) 2 ltac:(lia)). lia. }
  split.
  - assert (0 <= IZR r / IZR (Z.quot (RAND_MAX rs) 2)); [|lra].
    apply Rmult_le_pos; [exact Hr0|]. apply Rlt_le, Rinv_0_lt_compat, Hq.
  - apply Rmult_le_reg_r with (r := IZR (Z.quot (RAND_MAX rs) 2)); [exact Hq|].
    field_simplify; lra.
Qed.

(** With an odd [RAND_MAX] the draw [RAND_MAX] gives a value above 1. *)
Lemma rand_float_of_top (q : Z) :
  RAND_MAX rs = (2 * q + 1)%Z ->
  rand_float_of rs (RAND_MAX rs) = Ok (1 + 1 / IZR q) /\ 1 < 1 + 1 / IZR q.
Proof.
  intros Hodd. pose proof (RAND_MAX_min rs) as Hmin.
  pose proof (half_RAND_MAX_pos rs) as Hq.
  assert (Hquot : Z.quot (RAND_MAX rs) 2 = q).
  { rewrite Z.quot_div_nonneg by lia. rewrite Hodd.
    symmetry. apply (Z.div_unique (2 * q + 1) 2 q 1); lia. }
  rewrite Hquot in Hq. split.
  - rewrite rand_float_of_ok, Hquot. f_equal.
    rewrite Hodd at 1. rewrite plus_IZR, mult_IZR. field. lra.
  - assert (0 < 1 / IZR q); [|lra]. apply Rdiv_lt_0_compat; lra.
Qed.

(** Every draw of [rand_float] is in that range. *)
Lemma draw_range (g : Globals) (n : nat) :
  -1 <= draw rs g n <= 1 + 1 / IZR (Z.quot (RAND_MAX rs) 2).
Proof.
  destruct (rand_float_of_range _ (rand_seq_range rs (rand_seed g) (rand_count g + n)))
    as (v & Hv & Hrange).
  rewrite rand_float_of_ok in Hv. injection Hv as <-. exact Hrange.
Qed.

(** Below the top of an odd [RAND_MAX] the value is in [-1, 1]. *)
Lemma rand_float_of_inside (r : Z) :
  (0 <= r <= 2 * Z.quot (RAND_MAX rs) 2)%Z ->
  exists v, rand_float_of rs r = Ok v /\ -1 <= v <= 1.
Proof.
  intros Hr. eexists. split; [apply rand_float_of_ok|].
  pose proof (half_RAND_MAX_pos rs) as Hq.
  assert (Hr0 : 0 <= IZR r) by (apply IZR_le; lia).
  assert (Hr1 : IZR r <= 2 * IZR (Z.quot (RAND_MAX rs) 2))
    by (rewrite <- mult_IZR; apply IZR_le; lia).
  split.
  - assert (0 <= IZR r / IZR (Z.quot (RAND_MAX rs) 2)); [|lra].
    apply Rmult_le_pos; [exact Hr0|]. apply Rlt_le, Rinv_0_lt_compat, Hq.
  - apply Rmult_le_reg_r with (r := IZR (Z.quot (RAND_MAX rs) 2)); [exact Hq|].
    field_simplify; lra.
Qed.

End RandFloat.

(** C9: the value [rand_float] computes from the draw [RAND_MAX] is above
    1, for [RAND_MAX = 2147483647] and for [RAND_MAX = 32767]: the divisor
    [RAND_MAX/2] is an integer division and drops the half.  The comment of
    [rand_float] announces values between -1.0 and +1.0. *)
Theorem rand_float_exceeds_one (g : Globals) :
  (RAND_MAX top_source_31 = 2147483647%Z
   /\ rand_float top_source_31 g = Ok (1 + 1 / 1073741823, advance g 1)
   /\ 1 < 1 + 1 / 1073741823)%R
  /\ (RAND_MAX top_source_15 = 32767%Z
      /\ rand_float top_source_15 g = Ok (1 + 1 / 16383, advance g 1)
      /\ 1 < 1 + 1 / 16383)%R.
Proof.
  split; (split; [reflexivity|]); (split; [|lra]); rewrite rand_float_run;
    unfold draw; cbn [rand_seq RAND_MAX top_source_31 top_source_15 constant_source];
    f_equal; f_equal.
  - change (Z.quot 2147483647 2) with 1073741823%Z. field.
  - change (Z.quot 32767 2) with 16383%Z. field.
Qed.

(** * The recurrence along a matched string *)

Section Recurrence.

Local Open Scope R_scope.




End Recurrence.


(** The top draw in binary32.  With [RAND_MAX = 32767] the value of
    [rand_float] is [1 + 2^-14], above [1.0f]; with [RAND_MAX = 2147483647]
    both conversions round to powers of two and the value is [1.0f]
    exactly, so that the excess over 1 shows for the small generator
    only. *)
Lemma rand_float32_top_15 :
  rand_float32 32767 32767 = S754_finite false 8389120 (-23)
  /\ SFltb (f32_of_Z 1) (rand_float32 32767 32767) = true.
Proof. split; vm_compute; reflexivity. Qed.

Lemma rand_float32_top_31 :
  rand_float32 2147483647 2147483647 = f32_of_Z 1.
Proof. vm_compute. reflexivity. Qed.


(** * Further properties of the trie *)

Section TrieOrder.

Implicit Types (cur root n : TrieNode) (str path a b : list ascii).

Lemma slot_insert_eq cur c (x : TrieNode) (l : bool) :
  slot {| children := <[c := x]> (children cur); depth := depth cur; is_leaf := l |} c = x.
Proof. unfold slot. cbn [children]. now rewrite lookup_insert_eq. Qed.

Lemma slot_insert_ne cur c c' (x : TrieNode) (l : bool) :
  c <> c' ->
  slot {| children := <[c := x]> (children cur); depth := depth cur; is_leaf := l |} c'
  = slot cur c'.
Proof. intros Hne. unfold slot. cbn [children depth]. now rewrite lookup_insert_ne. Qed.

(** Two insertions commute. *)
Lemma insert_loop_commute fuel cur a b :
  insert_loop fuel (insert_loop fuel cur a) b =
  insert_loop fuel (insert_loop fuel cur b) a.
Proof.
  revert cur a b. induction fuel as [|fuel IH]; intros cur a b.
  - now rewrite !insert_loop_stop by auto.
  - destruct a as [|c a'], b as [|c' b'].
    + reflexivity.
    + rewrite (insert_loop_stop (S fuel) cur []) by auto.
      rewrite (insert_loop_step fuel cur), insert_loop_step.
      now rewrite (insert_loop_stop (S fuel) _ []) by auto.
    + rewrite (insert_loop_stop (S fuel) cur []) by auto.
      rewrite (insert_loop_step fuel cur), insert_loop_step.
      now rewrite (insert_loop_stop (S fuel) _ []) by auto.
    + rewrite (insert_loop_step fuel cur c), (insert_loop_step fuel cur c').
      rewrite !insert_loop_step. cbn [children depth is_leaf]. f_equal.
      destruct (decide (c = c')) as [<-|Hne].
      * rewrite !slot_insert_eq, !insert_insert_eq. now rewrite IH.
      * rewrite (slot_insert_ne cur c c') by exact Hne.
        rewrite (slot_insert_ne cur c' c) by (intros E; now apply Hne).
        now apply insert_insert_ne.
Qed.





End TrieOrder.

(** X1: the trie does not depend on the order of the insertions: inserting the
    same strings in another order, from the same root, gives the same
    trie. *)
Theorem trie_insert_order_irrelevant (root : TrieNode) (words words' : list (list ascii)) :
  Permutation words words' ->
  fold_left trie_insert words root = fold_left trie_insert words' root.
Proof.
  intros Hperm. revert root.
  induction Hperm as [|w l l' _ IH|a b l|l l' l'' _ IH1 _ IH2]; intros root.
  - reflexivity.
  - cbn [fold_left]. apply IH.
  - cbn [fold_left]. f_equal. apply insert_loop_commute.
  - now rewrite IH1.
Qed.

(** X1 at the words "cat" and "dog", from a root of depth 0. *)
Lemma trie_insert_order_irrelevant_witness :
  build_trie [list_ascii_of_string "cat"; list_ascii_of_string "dog"]
  = build_trie [list_ascii_of_string "dog"; list_ascii_of_string "cat"].
Proof.
  apply (trie_insert_order_irrelevant (create_trie_node 0)).
  apply perm_swap.
Defined.






(** * Further properties of the traversal *)

Section ForwardMore.

Context (rs : RandSource).

Local Open Scope R_scope.


(** Updates that succeed draw [RESERVOIR_SIZE] numbers each and write no
    weight. *)
Lemma run_updates_frame depths h g h' g' :
  run_updates rs depths h g = Ok (h', g') ->
  g' = advance g (length depths * RESERVOIR_SIZE).
Proof.
  revert h g. induction depths as [|l ls IH]; intros h g Hrun.
  - cbn in Hrun. injection Hrun as _ <-. now rewrite advance_0.
  - cbn [run_updates] in Hrun. unfold bind in Hrun.
    destruct (weights_at l g) as [[Wl g1]|] eqn:HW; [|discriminate].
    assert (g1 = g) as ->.
    { unfold weights_at in HW. destruct (l <? 0)%Z; [discriminate|].
      destruct (reservoir_weights g !! Z.to_nat l); [|discriminate]. congruence. }
    rewrite reservoir_update_run in Hrun. apply IH in Hrun.
    rewrite Hrun, advance_advance. reflexivity.
Qed.


Lemma tanh_bounds (x : R) : -1 < tanh x < 1.
Proof.
  pose proof (exp_pos x) as H1. pose proof (exp_pos (- x)) as H2.
  assert (Hsum : 0 < exp x + exp (- x)) by lra.
  assert (Hy : tanh x = (exp x - exp (- x)) / (exp x + exp (- x))).
  { unfold tanh, sinh, cosh. field. lra. }
  rewrite Hy. split.
  - apply Rmult_lt_reg_r with (r := exp x + exp (- x)); [exact Hsum|].
    unfold Rdiv. rewrite Rmult_assoc, Rinv_l by lra. lra.
  - apply Rmult_lt_reg_r with (r := exp x + exp (- x)); [exact Hsum|].
    unfold Rdiv. rewrite Rmult_assoc, Rinv_l by lra. lra.
Qed.

Lemma tanh_pos (x : R) : 0 < x -> 0 < tanh x.
Proof.
  intros Hx. pose proof (exp_pos x) as H1. pose proof (exp_pos (- x)) as H2.
  assert (Hlt : exp (- x) < exp x) by (apply exp_increasing; lra).
  unfold tanh, sinh, cosh.
  apply Rdiv_lt_0_compat; apply Rdiv_lt_0_compat; lra.
Qed.

Lemma tanh_opp (x : R) : tanh (- x) = - tanh x.
Proof.
  pose proof (exp_pos x) as H1. pose proof (exp_pos (- x)) as H2.
  unfold tanh, sinh, cosh. rewrite Ropp_involutive. field. lra.
Qed.

Lemma reservoir_update_bounded_state (Wl h : list R) g :
  exists h', reservoir_update rs Wl h g = Ok (h', advance g RESERVOIR_SIZE)
             /\ bounded_state h'.
Proof.
  eexists. split; [apply reservoir_update_run|]. split.
  - now rewrite length_map, length_seq.
  - apply List.Forall_forall. intros y Hy. apply in_map_iff in Hy.
    destruct Hy as (i & <- & _).
    pose proof (tanh_bounds (row_dot Wl h i + NOISE * draw rs g i)).
    unfold ALPHA. lra.
Qed.

Lemma run_updates_length depths h g h' g' :
  depths <> [] ->
  run_updates rs depths h g = Ok (h', g') -> length h' = RESERVOIR_SIZE.
Proof.
  revert h g. induction depths as [|l ls IH]; intros h g Hne Hrun; [congruence|].
  cbn [run_updates] in Hrun. unfold bind in Hrun.
  destruct (weights_at l g) as [[Wl g1]|]; [|discriminate].
  destruct (reservoir_update_bounded_state Wl h g1) as (h1 & Hup & Hlen & _).
  rewrite Hup in Hrun. destruct ls as [|l2 ls2].
  - cbn [run_updates] in Hrun. unfold ret in Hrun. injection Hrun as <- _.
    exact Hlen.
  - apply (IH _ _ ltac:(discriminate) Hrun).
Qed.

End ForwardMore.


(** X6: a traversal that returns has written no reservoir or readout
    weight and has drawn [RESERVOIR_SIZE] random numbers per update; with
    no update (empty input, or no edge for the first character) the state
    is returned as it was given, and after at least one update it has
    [RESERVOIR_SIZE] components whatever state was given. *)
Theorem forward_frame (rs : RandSource) (root : TrieNode)
    (input : list ascii) (h h' : list R) (g g' : Globals) :
  trie_reservoir_forward rs root input h g = Ok (h', g') ->
  let updates := visited_depths MAX_DEPTH root input in
  g' = advance g (length updates * RESERVOIR_SIZE)
  /\ (updates = [] -> h' = h)
  /\ (updates <> [] -> length h' = RESERVOIR_SIZE).
Proof.
  unfold trie_reservoir_forward. rewrite forward_loop_run_updates. intros Hrun.
  cbn zeta. split; [exact (run_updates_frame rs _ _ _ _ _ Hrun)|]. split.
  - intros Hnil. rewrite Hnil in Hrun. cbn [run_updates] in Hrun.
    unfold ret in Hrun. now injection Hrun as -> _.
  - intros Hne. exact (run_updates_length rs _ _ _ _ _ Hne Hrun).
Qed.

(** X6 at the trie of "cat", the input "cat" and a bank of [MAX_DEPTH]
    matrices: three updates. *)
Lemma forward_frame_witness :
  let root := build_trie [list_ascii_of_string "cat"] in
  exists h',
    trie_reservoir_forward top_source_15 root (list_ascii_of_string "cat")
      zero_state zero_globals
    = Ok (h', advance zero_globals (3 * RESERVOIR_SIZE))
    /\ length h' = RESERVOIR_SIZE.
Proof.
  cbn zeta.
  destruct (build_trie_forward_ok top_source_15 [list_ascii_of_string "cat"]
              (list_ascii_of_string "cat") zero_state zero_globals eq_refl)
    as (h' & Hrun).
  exists h'.
  destruct (forward_frame _ _ _ _ _ _ _ Hrun) as (Hg & _ & Hb).
  split.
  - rewrite Hrun. do 2 f_equal.
  - apply Hb. vm_compute. discriminate.
Defined.





(** Above the range of [expf] the quotient of [activate_tanh] is infinity
    over infinity: whatever value below 1 [expf] gives at [-x], the result
    is NaN, not a number close to 1. *)
Lemma activate_tanh32_overflow (expf : spec_float -> spec_float) (x : spec_float) :
  expf_overflows expf ->
  SFltb (f32_of_Z 89) x = true ->
  SFltb (expf (SFopp x)) (f32_of_Z 1) = true ->
  activate_tanh32 expf x = S754_nan.
Proof.
  intros He Hx Hlt. unfold activate_tanh32. rewrite (He x Hx).
  destruct (expf (SFopp x)) as [s | [|] | | s m e]; try discriminate Hlt;
    reflexivity.
Qed.

(** X9: for an argument between -88 and 88, where neither [expf(x)] nor
    [expf(-x)] overflows, [activate_tanh] does not divide by zero (its
    divisor is positive and at most [2 * exp 88]) and returns a value
    between -1 and 1 that is not negative for an argument that is not
    negative; the value at [-x] is the opposite of the value at [x]. *)
Theorem activate_tanh_bounded (x : R) :
  (Rabs x <= 88)%R ->
  exists y,
    activate_tanh x = Ok y
    /\ (0 < exp x + exp (- x) <= 2 * exp 88)%R
    /\ (-1 <= y <= 1)%R
    /\ activate_tanh (- x) = Ok (- y)%R
    /\ ((0 <= x)%R -> (0 <= y)%R).
Proof.
  intros Hx. apply Rabs_le_bounds in Hx.
  exists (tanh x). split; [apply activate_tanh_ok|]. split.
  { pose proof (exp_pos x). pose proof (exp_pos (- x)).
    assert (exp x <= exp 88)%R
      by (destruct (Req_dec x 88) as [-> | Hne]; [lra|];
          apply Rlt_le, exp_increasing; lra).
    assert (exp (- x) <= exp 88)%R
      by (destruct (Req_dec (- x) 88) as [-> | Hne]; [lra|];
          apply Rlt_le, exp_increasing; lra).
    lra. }
  split; [pose proof (tanh_bounds x); lra|].
  split; [now rewrite activate_tanh_ok, tanh_opp|].
  intros [Hpos | <-].
  - apply Rlt_le, tanh_pos, Hpos.
  - unfold tanh, sinh, cosh. rewrite Ropp_0, exp_0. lra.
Qed.

(** X9 at the argument 1. *)
Lemma activate_tanh_bounded_witness :
  exists y, activate_tanh 1 = Ok y /\ (0 <= y <= 1)%R.
Proof.
  destruct (activate_tanh_bounded 1) as (y & Hrun & _ & [_ Hhi] & _ & Hpos).
  - rewrite Rabs_R1. lra.
  - exists y. split; [exact Hrun|]. split; [apply Hpos; lra|exact Hhi].
Defined.

(** X10: on a matrix and a state whose products add up, in absolute value,
    to 80 at most in every row (so that every argument of [activate_tanh]
    is within [-81, 81], where [expf] does not overflow),
    [reservoir_update] does not fault, draws exactly [RESERVOIR_SIZE]
    random numbers, writes no weight, and returns a state of
    [RESERVOIR_SIZE] components, all between [-ALPHA] and [ALPHA]. *)
Theorem reservoir_update_bounded (rs : RandSource) (Wl h : list R) (g : Globals) :
  (forall i, (i < RESERVOIR_SIZE)%nat -> (abs_row_dot Wl h i <= 80)%R) ->
  exists h',
    reservoir_update rs Wl h g = Ok (h', advance g RESERVOIR_SIZE)
    /\ bounded_state h'.
Proof. intros _. apply reservoir_update_bounded_state. Qed.

(** X10 at the zeroed state and a matrix of ones. *)
Lemma reservoir_update_bounded_witness :
  exists h',
    reservoir_update top_source_15 (repeat 1%R (RESERVOIR_SIZE * RESERVOIR_SIZE))
      zero_state zero_globals
    = Ok (h', advance zero_globals RESERVOIR_SIZE)
    /\ bounded_state h'.
Proof.
  apply reservoir_update_bounded. intros i _.
  unfold zero_state. rewrite abs_row_dot_zero_state. lra.
Defined.

(** X11: [rand_float] never faults and returns a value between -1 and
    [1 + 1/(RAND_MAX/2)]; the value is above 1 only when [rand] returned
    more than twice [RAND_MAX/2], that is for the draw [RAND_MAX] of an odd
    [RAND_MAX]. *)
Theorem rand_float_range (rs : RandSource) (g : Globals) :
  let r := rand_seq rs (rand_seed g) (rand_count g) in
  let half := Z.quot (RAND_MAX rs) 2 in
  exists v,
    rand_float rs g = Ok (v, advance g 1)
    /\ (-1 <= v <= 1 + 1 / IZR half)%R
    /\ ((r <= 2 * half)%Z -> (v <= 1)%R)
    /\ ((1 < v)%R -> r = RAND_MAX rs /\ Z.odd (RAND_MAX rs) = true).
Proof.
  cbn zeta. exists (draw rs g 0). split; [apply rand_float_run|].
  split; [apply draw_range|].
  pose proof (rand_seq_range rs (rand_seed g) (rand_count g)) as Hr.
  pose proof (RAND_MAX_min rs) as Hmin.
  assert (Hin : (rand_seq rs (rand_seed g) (rand_count g) <= 2 * Z.quot (RAND_MAX rs) 2)%Z ->
                (draw rs g 0 <= 1)%R).
  { intros Hle.
    destruct (rand_float_of_inside rs (rand_seq rs (rand_seed g) (rand_count g)))
      as (v & Hv & Hrange); [lia|].
    rewrite rand_float_of_ok in Hv. injection Hv as <-.
    unfold draw. rewrite Nat.add_0_r. lra. }
  split; [exact Hin|].
  intros Hgt.
  assert (Hbig : (2 * Z.quot (RAND_MAX rs) 2 < rand_seq rs (rand_seed g) (rand_count g))%Z).
  { apply Z.nle_gt. intros Hle. apply Hin in Hle. lra. }
  rewrite Z.quot_div_nonneg in Hbig by lia.
  pose proof (Z.div_mod (RAND_MAX rs) 2 ltac:(lia)) as Hdm.
  pose proof (Z.mod_pos_bound (RAND_MAX rs) 2 ltac:(lia)) as Hmod.
  split; [lia|]. rewrite Zodd_mod. apply Z.eqb_eq. lia.
Qed.

(** X11 at [RAND_MAX = 32767] and the draw 100. *)
Lemma rand_float_range_witness :
  exists v,
    rand_float (constant_source 32767 ltac:(lia) 100 ltac:(lia)) zero_globals
    = Ok (v, advance zero_globals 1)
    /\ (-1 <= v <= 1)%R.
Proof.
  destruct (rand_float_range (constant_source 32767 ltac:(lia) 100 ltac:(lia)) zero_globals)
    as (v & Hrun & [Hlo _] & Hin & _).
  exists v. split; [exact Hrun|]. split; [exact Hlo|].
  apply Hin. vm_compute. discriminate.
Defined.

(** * Further properties of the readout *)

Section ReadoutMore.

Local Open Scope R_scope.

Lemma fold_left_sum {A} (f : A -> R) (l : list A) (a : R) :
  fold_left (fun z j => z + f j) l a = a + sum_list (map f l).
Proof.
  unfold sum_list. revert a.
  induction l as [|x l IH]; intros a; cbn; [lra|]. rewrite IH. lra.
Qed.

Lemma sum_list_sub_scale {A} (f k : A -> R) (c : R) (l : list A) :
  sum_list (map (fun j => f j - c * k j) l)
  = sum_list (map f l) - c * sum_list (map k l).
Proof.
  unfold sum_list. induction l as [|x l IH]; cbn; [lra|]. rewrite IH. lra.
Qed.

Lemma sum_list_ext_in {A} (f k : A -> R) (l : list A) :
  (forall x, In x l -> f x = k x) -> sum_list (map f l) = sum_list (map k l).
Proof. intros H. f_equal. now apply map_ext_in. Qed.

Lemma logit_sum (W : list (list R)) (h : list R) (i : nat) :
  logit W h i
  = sum_list (map (fun j => nth j (nth i W []) 0 * nth j h 0) (seq 0 RESERVOIR_SIZE)).
Proof. unfold logit. rewrite fold_left_sum. lra. Qed.


Lemma sq_norm_nonneg (h : list R) : 0 <= sq_norm h.
Proof.
  unfold sq_norm, sum_list. generalize (seq 0 RESERVOIR_SIZE). intros l.
  induction l as [|j l IH]; cbn; [lra|]. nra.
Qed.

Lemma trained_entry W h gold_index lr i j :
  (i < OUT_DIM)%nat -> (j < RESERVOIR_SIZE)%nat ->
  nth j (nth i (trained W h gold_index lr) []) 0
  = nth j (nth i W []) 0
    - lr * gradient (softmax (logits W h)) gold_index i * nth j h 0.
Proof.
  intros Hi Hj. unfold trained.
  rewrite (nth_map_seq _ OUT_DIM i []) by exact Hi.
  now rewrite (nth_map_seq _ RESERVOIR_SIZE j 0) by exact Hj.
Qed.

(** The logits move against the gradient, by the squared norm of the
    state. *)
Lemma logit_trained W h gold_index lr i :
  (i < OUT_DIM)%nat ->
  logit (trained W h gold_index lr) h i
  = logit W h i - lr * gradient (softmax (logits W h)) gold_index i * sq_norm h.
Proof.
  intros Hi. rewrite !logit_sum. unfold sq_norm.
  rewrite <- sum_list_sub_scale. apply sum_list_ext_in.
  intros j Hj. apply in_seq in Hj.
  rewrite trained_entry by lia. ring.
Qed.

End ReadoutMore.

Section Training.

Local Open Scope R_scope.

Lemma sum_exp_list_pos (f : nat -> R) (l : list nat) :
  l <> [] -> 0 < sum_list (map (fun i => exp (f i)) l).
Proof.
  intros Hl. rewrite <- (map_map f exp). apply sum_exp_pos.
  destruct l; [congruence|discriminate].
Qed.

Lemma sum_exp_member (f : nat -> R) (l : list nat) (k : nat) :
  In k l -> exp (f k) <= sum_list (map (fun i => exp (f i)) l).
Proof.
  unfold sum_list. induction l as [|i l IH]; intros Hk; [destruct Hk|]. cbn.
  assert (0 <= foldr Rplus 0 (map (fun i => exp (f i)) l)).
  { clear. induction l as [|j l IH]; cbn; [lra|]. pose proof (exp_pos (f j)). lra. }
  destruct Hk as [<- | Hk]; [lra|].
  pose proof (exp_pos (f i)). specialize (IH Hk). lra.
Qed.

(** The probability of unit [k], from the logits. *)
Lemma probs_nth (W : list (list R)) (h : list R) (k : nat) :
  (k < OUT_DIM)%nat ->
  nth k (softmax (logits W h)) 0
  = exp (logit W h k) / sum_list (map (fun i => exp (logit W h i)) (seq 0 OUT_DIM)).
Proof.
  intros Hk. unfold softmax, logits. rewrite !map_map.
  now rewrite (nth_map_seq _ OUT_DIM k 0) by exact Hk.
Qed.

Lemma probs_nth_range (W : list (list R)) (h : list R) (k : nat) :
  (k < OUT_DIM)%nat -> 0 < nth k (softmax (logits W h)) 0 <= 1.
Proof.
  intros Hk. rewrite probs_nth by exact Hk.
  assert (Hpos : 0 < sum_list (map (fun i => exp (logit W h i)) (seq 0 OUT_DIM)))
    by (apply sum_exp_list_pos; discriminate).
  pose proof (sum_exp_member (logit W h) (seq 0 OUT_DIM) k) as Hmem.
  pose proof (exp_pos (logit W h k)). split.
  - now apply Rdiv_lt_0_compat.
  - apply Rmult_le_reg_r with (r := sum_list (map (fun i => exp (logit W h i)) (seq 0 OUT_DIM)));
      [exact Hpos|].
    unfold Rdiv. rewrite Rmult_assoc, Rinv_l by lra.
    rewrite Rmult_1_r, Rmult_1_l. apply Hmem, in_seq. lia.
Qed.

End Training.





(** X15: a training step moves the logits of the trained state toward the
    gold output.  For a learning rate that is not negative, a gold index
    among the outputs and logits within the range of [expf] (terms adding
    up to 87 at most in absolute value, so that the probabilities are
    numbers), the logit of the gold output on that state does not decrease
    and the logit of every other output does not increase. *)
Theorem readout_train_moves_logits (h_state : list R) (k : nat) (lr : R) (g : Globals) :
  (k < OUT_DIM)%nat -> (0 <= lr)%R ->
  (forall i, (i < OUT_DIM)%nat -> (abs_logit (readout_weights g) h_state i <= 87)%R) ->
  exists g',
    readout_train h_state (Z.of_nat k) lr g = Ok (tt, g')
    /\ (logit (readout_weights g) h_state k <= logit (readout_weights g') h_state k)%R
    /\ forall i, (i < OUT_DIM)%nat -> i <> k ->
         (logit (readout_weights g') h_state i <= logit (readout_weights g) h_state i)%R.
Proof.
  intros Hk Hlr _. eexists. split; [apply readout_train_run|].
  cbn [readout_weights].
  change (logit (readout_weights g) h_state k
          <= logit (trained (readout_weights g) h_state (Z.of_nat k) lr) h_state k
          /\ forall i, (i < OUT_DIM)%nat -> i <> k ->
               logit (trained (readout_weights g) h_state (Z.of_nat k) lr) h_state i
               <= logit (readout_weights g) h_state i)%R.
  pose proof (sq_norm_nonneg h_state) as Hs. split.
  - rewrite logit_trained by exact Hk.
    pose proof (probs_nth_range (readout_weights g) h_state k Hk) as Hp.
    unfold gradient. rewrite Z.eqb_refl.
    assert (0 <= lr * (1 - nth k (softmax (logits (readout_weights g) h_state)) 0)
                 * sq_norm h_state)%R
      by (apply Rmult_le_pos; [apply Rmult_le_pos|]; lra).
    lra.
  - intros i Hi Hne. rewrite logit_trained by exact Hi.
    pose proof (probs_nth_range (readout_weights g) h_state i Hi) as Hp.
    unfold gradient. destruct (Z.eqb_spec (Z.of_nat i) (Z.of_nat k)); [lia|].
    assert (0 <= lr * nth i (softmax (logits (readout_weights g) h_state)) 0
                 * sq_norm h_state)%R
      by (apply Rmult_le_pos; [apply Rmult_le_pos|]; lra).
    lra.
Qed.

(** X15 at a state of ones, readout weights all zero, the gold index 1 and
    the learning rate 0.01. *)
Lemma readout_train_moves_logits_witness :
  exists g',
    readout_train (repeat 1%R RESERVOIR_SIZE) 1 (1 / 100)%R zero_globals = Ok (tt, g')
    /\ (logit (readout_weights zero_globals) (repeat 1 RESERVOIR_SIZE) 1
        <= logit (readout_weights g') (repeat 1 RESERVOIR_SIZE) 1)%R
    /\ (logit (readout_weights g') (repeat 1 RESERVOIR_SIZE) 0
        <= logit (readout_weights zero_globals) (repeat 1 RESERVOIR_SIZE) 0)%R.
Proof.
  destruct (readout_train_moves_logits (repeat 1%R RESERVOIR_SIZE) 1 (1 / 100)%R zero_globals)
    as (g' & Hrun & Hup & Hdown).
  - unfold OUT_DIM. lia.
  - lra.
  - intros i Hi. rewrite abs_logit_zero_weights by exact Hi. lra.
  - exists g'. split; [exact Hrun|]. split; [exact Hup|].
    apply Hdown; [unfold OUT_DIM; lia | discriminate].
Defined.

(** * The initialisation of the readout and the whole program *)

Section Program.

Context (rs : RandSource).

Local Open Scope R_scope.

(** One row of [init_readout]. *)
Lemma init_readout_row g :
  for_each (fun _ : nat => n <~ rand_float rs ;; ret (1 / 100 * n)) (seq 0 RESERVOIR_SIZE) g
  = Ok (map (fun i => 1 / 100 * draw rs g (i - 0)) (seq 0 RESERVOIR_SIZE),
        advance g RESERVOIR_SIZE).
Proof.
  apply (for_each_draw rs _ (fun _ n => 1 / 100 * n)).
  intros i g0. unfold bind. now rewrite rand_float_run.
Qed.

Lemma init_readout_rows (n : nat) : forall (a : nat) (g : Globals),
  exists W,
    for_each (fun _ : nat =>
                for_each (fun _ : nat => n <~ rand_float rs ;; ret (1 / 100 * n))
                         (seq 0 RESERVOIR_SIZE))
             (seq a n) g
    = Ok (W, advance g (n * RESERVOIR_SIZE))
    /\ length W = n
    /\ Forall (fun row =>
                 length row = RESERVOIR_SIZE
                 /\ Forall (fun w => - (1 / 100) <= w
                                     <= 1 / 100 * (1 + 1 / IZR (Z.quot (RAND_MAX rs) 2)))
                           row) W.
Proof.
  induction n as [|n IH]; intros a g.
  - exists []. change (0 * RESERVOIR_SIZE)%nat with 0%nat. rewrite advance_0.
    split; [reflexivity|]. split; [reflexivity|constructor].
  - destruct (IH (S a) (advance g RESERVOIR_SIZE)) as (W & Hrun & Hlen & Hall).
    eexists (_ :: W). cbn [seq for_each]. unfold bind at 1. rewrite init_readout_row.
    unfold bind at 1. rewrite Hrun. unfold ret. rewrite advance_advance.
    split; [reflexivity|]. split; [cbn [length]; now rewrite Hlen|].
    constructor; [|exact Hall]. split; [now rewrite length_map, length_seq|].
    apply List.Forall_forall. intros w Hw. apply in_map_iff in Hw.
    destruct Hw as (i & <- & _). pose proof (draw_range rs g (i - 0)). lra.
Qed.

Lemma init_reservoir_weights_run (depth_count now : Z) (g : Globals) :
  exists bank,
    init_reservoir_weights rs depth_count now g =
    Ok (tt, {| reservoir_weights := bank;
               readout_weights := readout_weights g;
               rand_seed := (now mod 2 ^ 32)%Z;
               rand_count := Z.to_nat depth_count * (RESERVOIR_SIZE * RESERVOIR_SIZE) |})
    /\ length bank = Z.to_nat depth_count.
Proof.
  destruct (init_bank_run rs (Z.to_nat depth_count) 0 (seeded g (now mod 2 ^ 32)))
    as (bank & Hrun & Hlen & _).
  exists bank. split; [|exact Hlen].
  unfold init_reservoir_weights, bind at 1, srand. fold (seeded g (now mod 2 ^ 32)).
  unfold bind at 1. rewrite Hrun. reflexivity.
Qed.

Lemma init_readout_run (g : Globals) :
  exists W,
    init_readout rs g =
    Ok (tt, {| reservoir_weights := reservoir_weights g;
               readout_weights := W;
               rand_seed := rand_seed g;
               rand_count := rand_count g + OUT_DIM * RESERVOIR_SIZE |})
    /\ length W = OUT_DIM
    /\ Forall (fun row =>
                 length row = RESERVOIR_SIZE
                 /\ Forall (fun w => - (1 / 100) <= w
                                     <= 1 / 100 * (1 + 1 / IZR (Z.quot (RAND_MAX rs) 2)))
                           row) W.
Proof.
  destruct (init_readout_rows OUT_DIM 0 g) as (W & Hrun & Hlen & Hall).
  exists W. split; [|split; assumption].
  unfold init_readout, bind at 1. rewrite Hrun. reflexivity.
Qed.

(** One training example: no fault with a full bank; the bank and the seed
    stay, the draws are those of the traversal. *)
Lemma train_example_ok (words : list (list ascii)) (w : list ascii) (gold : Z) (lr : R)
    (g : Globals) :
  length (reservoir_weights g) = MAX_DEPTH ->
  exists g',
    train_example rs (build_trie words) w gold lr g = Ok (tt, g')
    /\ reservoir_weights g' = reservoir_weights g
    /\ rand_seed g' = rand_seed g
    /\ rand_count g' = (rand_count g
                        + length (visited_depths MAX_DEPTH (build_trie words) w)
                          * RESERVOIR_SIZE)%nat.
Proof.
  intros Hbank.
  destruct (build_trie_forward_ok rs words w zero_state g Hbank) as (h' & Hrun).
  unfold train_example, bind. rewrite Hrun, readout_train_run.
  eexists. split; [reflexivity|]. cbn. auto.
Qed.

Lemma epoch_loop_ok (n : nat) : forall (epoch : Z) (lr : R) (g : Globals),
  length (reservoir_weights g) = MAX_DEPTH ->
  exists lr' g',
    epoch_loop rs n epoch (build_trie main_words) lr g = Ok (lr', g')
    /\ reservoir_weights g' = reservoir_weights g
    /\ rand_seed g' = rand_seed g
    /\ rand_count g' = (rand_count g + n * (15 * RESERVOIR_SIZE))%nat.
Proof.
  induction n as [|n IH]; intros epoch lr g Hbank.
  - exists lr, g. cbn. repeat split. lia.
  - cbn [epoch_loop].
    destruct (train_example_ok main_words (list_ascii_of_string "hello") 0 lr g Hbank)
      as (g1 & H1 & Hw1 & Hs1 & Hc1).
    destruct (train_example_ok main_words (list_ascii_of_string "cat") 1 lr g1
                ltac:(now rewrite Hw1)) as (g2 & H2 & Hw2 & Hs2 & Hc2).
    destruct (train_example_ok main_words (list_ascii_of_string "dog") 2 lr g2
                ltac:(now rewrite Hw2, Hw1)) as (g3 & H3 & Hw3 & Hs3 & Hc3).
    destruct (train_example_ok main_words (list_ascii_of_string "help") 3 lr g3
                ltac:(now rewrite Hw3, Hw2, Hw1)) as (g4 & H4 & Hw4 & Hs4 & Hc4).
    destruct (IH (epoch + 1)%Z
                 (if (Z.rem epoch 20 =? 19)%Z then lr * (9 / 10) else lr) g4
                 ltac:(now rewrite Hw4, Hw3, Hw2, Hw1))
      as (lr' & g' & Hrun & Hw & Hs & Hc).
    exists lr', g'.
    unfold bind at 1. rewrite H1. unfold bind at 1. rewrite H2.
    unfold bind at 1. rewrite H3. unfold bind at 1. rewrite H4.
    split; [exact Hrun|]. split; [congruence|]. split; [congruence|].
    assert (L1 : length (visited_depths MAX_DEPTH (build_trie main_words)
                           (list_ascii_of_string "hello")) = 5%nat)
      by (vm_compute; reflexivity).
    assert (L2 : length (visited_depths MAX_DEPTH (build_trie main_words)
                           (list_ascii_of_string "cat")) = 3%nat)
      by (vm_compute; reflexivity).
    assert (L3 : length (visited_depths MAX_DEPTH (build_trie main_words)
                           (list_ascii_of_string "dog")) = 3%nat)
      by (vm_compute; reflexivity).
    assert (L4 : length (visited_depths MAX_DEPTH (build_trie main_words)
                           (list_ascii_of_string "help")) = 4%nat)
      by (vm_compute; reflexivity).
    rewrite L1 in Hc1. rewrite L2 in Hc2. rewrite L3 in Hc3. rewrite L4 in Hc4.
    rewrite Hc, Hc4, Hc3, Hc2, Hc1. lia.
Qed.

End Program.

(** X16: [init_readout] never faults, draws [OUT_DIM * RESERVOIR_SIZE] random
    numbers, leaves the reservoir bank alone and fills the readout matrix
    with [OUT_DIM] rows of [RESERVOIR_SIZE] entries, each between [-0.01]
    and [0.01 * (1 + 1/(RAND_MAX/2))]. *)
Theorem init_readout_small_weights (rs : RandSource) (g : Globals) :
  exists W,
    init_readout rs g =
    Ok (tt, {| reservoir_weights := reservoir_weights g;
               readout_weights := W;
               rand_seed := rand_seed g;
               rand_count := rand_count g + OUT_DIM * RESERVOIR_SIZE |})
    /\ length W = OUT_DIM
    /\ Forall (fun row =>
                 length row = RESERVOIR_SIZE
                 /\ Forall (fun w => (- (1 / 100) <= w
                                      <= 1 / 100 * (1 + 1 / IZR (Z.quot (RAND_MAX rs) 2)))%R)
                           row) W.
Proof. apply init_readout_run. Qed.

(** X17: [main] runs to its end without fault, whatever the time it seeds
    the generator with and whatever the generator: no access past the bank,
    no division by zero.  It prints [OUT_DIM] numbers; the bank still has
    its [MAX_DEPTH] matrices, and the program has drawn the random numbers
    of 16 matrices, of the readout matrix, of 100 epochs of 15 updates and
    of the 5 updates of the last traversal. *)
Theorem main_runs (rs : RandSource) (now : Z) (g : Globals) :
  exists probs g',
    main rs now g = Ok (probs, g')
    /\ length probs = OUT_DIM
    /\ length (reservoir_weights g') = MAX_DEPTH
    /\ rand_seed g' = (now mod 2 ^ 32)%Z
    /\ rand_count g' = (MAX_DEPTH * (RESERVOIR_SIZE * RESERVOIR_SIZE)
                        + OUT_DIM * RESERVOIR_SIZE
                        + 100 * (15 * RESERVOIR_SIZE)
                        + 5 * RESERVOIR_SIZE)%nat.
Proof.
  unfold main. fold (build_trie main_words).
  destruct (init_reservoir_weights_run rs (Z.of_nat MAX_DEPTH) now g) as (bank & H1 & Hlen).
  rewrite Nat2Z.id in H1, Hlen.
  unfold bind at 1. rewrite H1.
  match type of H1 with _ = Ok (tt, ?g1) =>
    destruct (init_readout_run rs g1) as (W & H2 & _) end.
  unfold bind at 1. rewrite H2. cbn [reservoir_weights readout_weights rand_seed rand_count].
  match type of H2 with _ = Ok (tt, ?g2) =>
    destruct (epoch_loop_ok rs 100 0 (1 / 100)%R g2 Hlen) as (lr' & g3 & H3 & Hw3 & Hs3 & Hc3)
  end.
  cbn [reservoir_weights readout_weights rand_seed rand_count] in H3, Hw3, Hs3, Hc3.
  unfold bind at 1. rewrite H3.
  destruct (build_trie_forward_ok rs main_words (list_ascii_of_string "hello")
              zero_state g3 ltac:(now rewrite Hw3)) as (h & H4).
  unfold bind at 1. rewrite H4, readout_forward_run.
  eexists. eexists. split; [reflexivity|].
  split; [now rewrite softmax_length; unfold logits; rewrite length_map, length_seq|].
  cbn [advance reservoir_weights rand_seed rand_count].
  split; [now rewrite Hw3|]. split; [exact Hs3|].
  assert (L : length (visited_depths MAX_DEPTH (build_trie main_words)
                        (list_ascii_of_string "hello")) = 5%nat)
    by (vm_compute; reflexivity).
  rewrite L, Hc3. reflexivity.
Qed.

(** The learning rate an epoch loop ends with: one factor [0.9] per epoch
    whose number is 19 modulo 20. *)
Lemma epoch_loop_learning_rate (rs : RandSource) (root : TrieNode) (n : nat) :
  forall (epoch : Z) (lr : R) (g : Globals) (lr' : R) (g' : Globals),
    epoch_loop rs n epoch root lr g = Ok (lr', g') ->
    lr' = (lr * (9 / 10) ^ decays n epoch)%R.
Proof.
  induction n as [|n IH]; intros epoch lr g lr' g' Hrun.
  - cbn in Hrun. injection Hrun as <- _. cbn. lra.
  - cbn [epoch_loop] in Hrun. unfold bind in Hrun.
    destruct (train_example rs root _ 0 lr g) as [[[] g1]|]; [|discriminate].
    destruct (train_example rs root _ 1 lr g1) as [[[] g2]|]; [|discriminate].
    destruct (train_example rs root _ 2 lr g2) as [[[] g3]|]; [|discriminate].
    destruct (train_example rs root _ 3 lr g3) as [[[] g4]|]; [|discriminate].
    apply IH in Hrun. rewrite Hrun. cbn [decays].
    destruct (Z.rem epoch 20 =? 19)%Z; cbn [Nat.add pow]; lra.
Qed.

(** Among the [n] epochs from [e] on, as many lower the rate as there are
    multiples of 20 in [e + 1 .. e + n]. *)
Lemma decays_div (n : nat) : forall e : Z, (0 <= e)%Z ->
  Z.of_nat (decays n e) = ((e + Z.of_nat n) / 20 - e / 20)%Z.
Proof.
  induction n as [|n IH]; intros e He.
  - cbn [decays]. rewrite Z.add_0_r. lia.
  - cbn [decays]. rewrite Nat2Z.inj_add, IH by lia.
    rewrite Z.rem_mod_nonneg by lia.
    replace (e + Z.of_nat (S n))%Z with (e + 1 + Z.of_nat n)%Z by lia.
    destruct (Z.eqb_spec (e mod 20) 19) as [H|H]; cbn [Z.of_nat];
      Z.div_mod_to_equations; lia.
Qed.

Lemma decays_from_0 (n : nat) : decays n 0 = (n / 20)%nat.
Proof.
  apply Nat2Z.inj. rewrite decays_div by lia.
  rewrite Nat2Z.inj_div, Z.add_0_l. change (0 / 20)%Z with 0%Z.
  change (Z.of_nat 20) with 20%Z. lia.
Qed.

(** X18: the learning rate after [n] epochs of the loop of [main], started
    at epoch 0 with the rate 0.01, is [0.01 * 0.9 ^ (n / 20)]: the rate is
    lowered at the end of the epochs 19, 39, 59, ... and of no other, so
    that the 100 epochs of [main] end with [0.01 * 0.9^5]. *)
Theorem main_learning_rate (rs : RandSource) (root : TrieNode) (n : nat)
    (g g' : Globals) (lr' : R) :
  epoch_loop rs n 0 root (1 / 100)%R g = Ok (lr', g') ->
  lr' = (1 / 100 * (9 / 10) ^ (n / 20))%R.
Proof.
  intros Hrun. rewrite (epoch_loop_learning_rate rs root n 0 _ g lr' g' Hrun).
  now rewrite decays_from_0.
Qed.

(** X18 at the trie of [main], its 100 epochs and a bank of [MAX_DEPTH]
    matrices. *)
Lemma main_learning_rate_witness :
  exists lr' g',
    epoch_loop top_source_15 100 0 (build_trie main_words) (1 / 100)%R zero_globals
    = Ok (lr', g')
    /\ lr' = (1 / 100 * (9 / 10) ^ 5)%R.
Proof.
  destruct (epoch_loop_ok top_source_15 100 0 (1 / 100)%R zero_globals eq_refl)
    as (lr' & g' & Hrun & _).
  exists lr', g'. split; [exact Hrun|].
  exact (main_learning_rate _ _ 100 _ _ _ Hrun).
Defined.
